(** * photoscanner: duplicate detection and resolution, verified

    A shallow embedding of the detection-and-resolution engine of
    photoscanner ([scanner.py], [utils.py], [db.py] and the deletion and
    auto-selection handlers of [gui/resolve_dialog.py]).

    Conventions of the embedding:
    - Python [str] is [string]; Python [int] is [Z]; a Python [float]
      (quality score, [st_mtime]) is an exact rational [Qc]: the order and
      the arithmetic of the values are kept, binary rounding is not modelled.
    - A Python [dict] whose iteration order is observable is an
      insertion-ordered association list; the file system, the sqlite table
      [images] and the metadata blocks of a file are finite maps.
    - A Python exception is an explicit error value. *)

From Stdlib Require Import QArith Qcanon Ascii String.
From stdpp Require Import base option strings pretty sorting numbers gmap fin_maps list.

Local Open Scope Z_scope.
#[local] Set Warnings "-clear-no-such-hyp".

(** ** Python's stable sort

    [sorted(l, key=k)] and [l.sort(key=k)] are stable: records with equal
    keys keep their relative order.  [reverse=True] sorts in descending
    order and is stable too.  Both are an insertion sort that puts an
    element in front of the first element it may precede. *)

Section PySort.
Context {A K : Type} (lek : K → K → bool) (key : A → K).

Fixpoint insert_by (x : A) (l : list A) : list A :=
  match l with
  | [] => [x]
  | y :: l' =>
      if lek (key x) (key y) then x :: y :: l' else y :: insert_by x l'
  end.

Definition py_sorted (l : list A) : list A := foldr insert_by [] l.
End PySort.

(** Order on the sort keys used by the grouping functions. *)

Definition Qc_leb (x y : Qc) : bool := bool_decide (x ≤ y)%Qc.

(** descending order on a key, as [reverse=True] gives it *)
Definition flip_leb {K : Type} (lek : K → K → bool) (a b : K) : bool := lek b a.

(** Python compares tuples lexicographically. *)
Definition pair_leb {K1 K2 : Type} (ltb1 : K1 → K1 → bool) (eqb1 : K1 → K1 → bool)
    (leb2 : K2 → K2 → bool) (a b : K1 * K2) : bool :=
  ltb1 a.1 b.1 || (eqb1 a.1 b.1 && leb2 a.2 b.2).

(** ** The record store's row ([db.ImageRecord]) *)

Record ImageRecord := mkImageRecord {
  path : string;
  sha256 : string;
  phash : string;
  width : Z;
  height : Z;
  file_size : Z;
  mtime_ns : Z;
  score : Qc;
  embedding : option (list Byte.byte);
  faces_json : option string;
  objects_json : option string;
}.

(** ** [image_quality_score] *)

Definition image_quality_score (width height file_size : Z) (sharpness : Qc) : Qc :=
  let resolution := (Qc_of_Z width * Qc_of_Z height)%Qc in
  ((resolution / Qc_of_Z 1000000) * Qc_of_Z 10
   + (Qc_of_Z file_size / Qc_of_Z 1000000)
   + (sharpness / Qc_of_Z 100))%Qc.

(** ** [group_duplicates_by_sha256] *)

(** [by_sha.setdefault(k, []).append(r)] on an insertion-ordered dict *)
Fixpoint setdefault_append {V : Type} (k : string) (r : V)
    (d : list (string * list V)) : list (string * list V) :=
  match d with
  | [] => [(k, [r])]
  | (k', v) :: d' =>
      if decide (k' = k) then (k', v ++ [r]) :: d'
      else (k', v) :: setdefault_append k r d'
  end.

Definition by_sha (records : list ImageRecord) : list (string * list ImageRecord) :=
  foldl (λ d r, setdefault_append (sha256 r) r d) [] records.

(** [sorted(v, key=lambda x: x.score, reverse=True)] *)
Definition sort_by_score_desc (v : list ImageRecord) : list ImageRecord :=
  py_sorted (flip_leb Qc_leb) score v.

(** [g[0].sha256]; the groups that are sorted have at least two members. *)
Definition head_sha (g : list ImageRecord) : string :=
  match g with [] => "" | r :: _ => sha256 r end.

Definition head_score (g : list ImageRecord) : Qc :=
  match g with [] => Q2Qc 0 | r :: _ => score r end.

(** key [(-len(g), g[0].sha256)] *)
Definition sha_group_key (g : list ImageRecord) : Z * string :=
  (- Z.of_nat (length g), head_sha g).

Definition sha_key_leb : Z * string → Z * string → bool :=
  pair_leb Z.ltb Z.eqb String.leb.

Definition group_duplicates_by_sha256 (records : list ImageRecord)
    : list (list ImageRecord) :=
  let groups :=
    map sort_by_score_desc
        (filter (λ v, (1 < length v)%nat) (map snd (by_sha records))) in
  py_sorted sha_key_leb sha_group_key groups.

(** ** Exceptions

    A call that may raise returns a [result]. *)

Inductive exn :=
  | ValueError          (* int(s, 16) on a malformed string; numpy on ragged input *)
  | OSError             (* stat, open, read on a missing or unreadable file *)
  | DecodeError         (* PIL / pyexiv2 cannot decode the file *)
  | ModelError          (* the embedding model or the detector failed *)
  | SqliteError         (* sqlite3.Error from the record store *)
  | CallbackError.      (* the caller's progress callback raised *)

Inductive result (A : Type) :=
  | Ok (a : A)
  | Raise (e : exn).
Arguments Ok {A} a.
Arguments Raise {A} e.

#[global] Instance result_ret : MRet result := @Ok.
#[global] Instance result_bind : MBind result := λ A B f m,
  match m with Ok a => f a | Raise e => Raise e end.

(** ** [hamming_distance_hex_phash] *)

(** the position of a character in a string of digits *)
Fixpoint digit_index (c : ascii) (digits : string) (i : Z) : option Z :=
  match digits with
  | EmptyString => None
  | String d rest => if decide (d = c) then Some i else digit_index c rest (i + 1)
  end.

(** the value of a hexadecimal digit, in either case *)
Definition hex_digit (c : ascii) : option Z :=
  match digit_index c "0123456789abcdef" 0 with
  | Some d => Some d
  | None => digit_index c "0123456789ABCDEF" 0
  end.

Fixpoint int16_digits (acc : Z) (s : string) : result Z :=
  match s with
  | EmptyString => Ok acc
  | String c s' =>
      match hex_digit c with
      | Some d => int16_digits (16 * acc + d) s'
      | None => Raise ValueError
      end
  end.

(** [int(s, 16)] on the strings imagehash writes: a non-empty run of
    hexadecimal digits.  Every other string is rejected here (Python also
    reads a sign, a [0x] prefix, underscores and surrounding blanks, which a
    perceptual hash never has). *)
Definition int16 (s : string) : result Z :=
  match s with
  | EmptyString => Raise ValueError
  | _ => int16_digits 0 s
  end.

(** [bin(n)]: the binary numeral of [n] as text *)
Fixpoint bin_pos (p : positive) : string :=
  match p with
  | xH => "1"
  | xO q => bin_pos q +:+ "0"
  | xI q => bin_pos q +:+ "1"
  end.

Definition bin (n : Z) : string :=
  match n with
  | Z0 => "0b0"
  | Zpos p => "0b" +:+ bin_pos p
  | Zneg p => "-0b" +:+ bin_pos p
  end.

(** [s.count(c)] for a one-character [c] *)
Fixpoint count_char (c : ascii) (s : string) : nat :=
  match s with
  | EmptyString => 0%nat
  | String c' s' => ((if decide (c' = c) then 1 else 0) + count_char c s')%nat
  end.

Definition hamming_distance_hex_phash (a b : string) : result Z :=
  x ← int16 a;
  y ← int16 b;
  Ok (Z.of_nat (count_char "1"%char (bin (Z.lxor x y)))).

(** ** [group_duplicates_by_phash] *)

(** [l.pop()]: the last element and the list without it *)
Definition pop {A : Type} (l : list A) : option (A * list A) :=
  match reverse l with
  | [] => None
  | x :: r => Some (x, reverse r)
  end.

(** The [for r in remaining] loop: the records within [threshold] of the
    seed, and the records kept for later seeds, both in list order. *)
Fixpoint split_by_seed (seed : ImageRecord) (threshold : Z)
    (remaining : list ImageRecord) : result (list ImageRecord * list ImageRecord) :=
  match remaining with
  | [] => Ok ([], [])
  | r :: rest =>
      d ← hamming_distance_hex_phash (phash seed) (phash r);
      '(near, keep) ← split_by_seed seed threshold rest;
      Ok (if d <=? threshold then (r :: near, keep) else (near, r :: keep))
  end.

(** key [(-len(g), -g[0].score)] *)
Definition score_group_key (g : list ImageRecord) : Z * Qc :=
  (- Z.of_nat (length g), (- head_score g)%Qc).

Definition score_key_leb : Z * Qc → Z * Qc → bool :=
  pair_leb Z.ltb Z.eqb Qc_leb.

(** The [while remaining] loop.  Each turn removes the seed from
    [remaining], so [length remaining] turns are enough; [None] means the
    loop was cut before [remaining] was empty. *)
Fixpoint phash_loop (fuel : nat) (threshold : Z) (remaining : list ImageRecord)
    (groups : list (list ImageRecord)) : option (result (list (list ImageRecord))) :=
  match pop remaining with
  | None => Some (Ok groups)
  | Some (seed, rest) =>
      match fuel with
      | O => None
      | S fuel' =>
          match split_by_seed seed threshold rest with
          | Raise e => Some (Raise e)
          | Ok (near, keep) =>
              let cluster := seed :: near in
              let groups' :=
                if decide (1 < length cluster)%nat
                then groups ++ [sort_by_score_desc cluster]
                else groups in
              phash_loop fuel' threshold keep groups'
          end
      end
  end.

Definition group_duplicates_by_phash (records : list ImageRecord) (threshold : Z)
    : option (result (list (list ImageRecord))) :=
  groups ← phash_loop (length records) threshold records [];
  Some (gs ← groups; Ok (py_sorted score_key_leb score_group_key gs)).

(** ** [group_duplicates_by_embedding]

    The similarity matrix is numpy's ([np.frombuffer], [np.array],
    [np.dot]); it is a parameter of the embedding.  [sim_ge valid i j]
    stands for [sim_matrix[i, j] >= threshold] on the matrix built from
    [valid], and building it can raise. *)

Section Embedding.
Variable sim_matrix_ge : list ImageRecord → result (nat → nat → bool).

(** the [for j in range(i + 1, n)] loop *)
Definition embedding_inner (ge : nat → nat → bool) (i : nat)
    (later : list (nat * ImageRecord))
    (st : list ImageRecord * gset nat) : list ImageRecord * gset nat :=
  foldl (λ '(cluster, visited) '(j, rj),
           if decide (j ∈ visited) then (cluster, visited)
           else if ge i j then (cluster ++ [rj], {[j]} ∪ visited)
           else (cluster, visited))
        st later.

(** the [for i in range(n)] loop over the indexed records from [i] on;
    [indexed] is [(i, valid[i]), (i+1, valid[i+1]), ...] *)
Fixpoint embedding_outer (ge : nat → nat → bool)
    (indexed : list (nat * ImageRecord))
    (visited : gset nat) (groups : list (list ImageRecord))
    : list (list ImageRecord) :=
  match indexed with
  | [] => groups
  | (i, ri) :: later =>
      if decide (i ∈ visited) then embedding_outer ge later visited groups
      else
        let '(cluster, visited') :=
          embedding_inner ge i later ([ri], {[i]} ∪ visited) in
        let groups' :=
          if decide (1 < length cluster)%nat
          then groups ++ [sort_by_score_desc cluster]
          else groups in
        embedding_outer ge later visited' groups'
  end.

Definition group_duplicates_by_embedding (records : list ImageRecord)
    : result (list (list ImageRecord)) :=
  let valid_records := filter (λ r, embedding r ≠ None) records in
  match valid_records with
  | [] => Ok []
  | _ =>
      ge ← sim_matrix_ge valid_records;
      let groups :=
        embedding_outer ge (zip (seq 0 (length valid_records)) valid_records) ∅ [] in
      Ok (py_sorted score_key_leb score_group_key groups)
  end.
End Embedding.

(** ** The files on disk, as the resolve dialog sees them

    [pathlib], Qt's [QPixmap], [os] and [pyexiv2] are outside the
    repository; a file carries what they report about it. *)

(** [pathlib.Path]: [len(Path(p).parts)] and [Path(p).name] depend on the
    platform's path syntax. *)
Class Pathlib := {
  path_parts_len : string → Z;
  path_name : string → string;
}.

(** the three metadata blocks pyexiv2 reads and modifies *)
Record metadata := mkMetadata {
  exif : gmap string string;
  iptc : gmap string string;
  xmp : gmap string string;
}.

Record file := mkFile {
  pix_width : N;            (* QPixmap(path).width(); 0 when Qt cannot decode *)
  pix_height : N;           (* QPixmap(path).height() *)
  st_mtime : Qc;            (* Path.stat().st_mtime *)
  st_size : Z;              (* Path.stat().st_size *)
  locked : bool;            (* os.remove(path) raises *)
  meta : option metadata;   (* None: pyexiv2.Image(path) raises *)
}.

Record world := mkWorld {
  files : gmap string file;             (* absent: the path does not exist *)
  images : gmap string ImageRecord;     (* the table [images] of the store *)
  stdout : list string;                 (* what [print] wrote *)
}.

(** ** [merge_image_metadata] ([utils.py]) *)

(** one [for k, v in src.items()] loop *)
Definition merge_block (target src : gmap string string)
    (st : gmap string string * bool) : gmap string string * bool :=
  foldl (λ '(new, modified) '(k, v),
           if decide (target !! k = None ∧ new !! k = None)
           then (<[k:=v]> new, true)
           else (new, modified))
        st (map_to_list src).

Record merge_state := mkMergeState {
  new_exif : gmap string string;
  new_iptc : gmap string string;
  new_xmp : gmap string string;
  modified : bool;
}.

(** the body of [for src_path in source_paths]; a source that pyexiv2
    cannot open is skipped ([except Exception: continue]) *)
Definition merge_source (fs : gmap string file) (target : metadata)
    (st : merge_state) (src_path : string) : merge_state :=
  match fs !! src_path ≫= meta with
  | None => st
  | Some src =>
      let '(ne, m1) := merge_block (exif target) (exif src) (new_exif st, modified st) in
      let '(ni, m2) := merge_block (iptc target) (iptc src) (new_iptc st, m1) in
      let '(nx, m3) := merge_block (xmp target) (xmp src) (new_xmp st, m2) in
      mkMergeState ne ni nx m3
  end.

(** [img.modify_exif(d)]: the keys of [d] are set, the others are kept *)
Definition modify (d block : gmap string string) : gmap string string :=
  d ∪ block.

Definition set_meta (f : file) (m : metadata) : file :=
  mkFile (pix_width f) (pix_height f) (st_mtime f) (st_size f) (locked f) (Some m).

Definition merge_image_metadata (source_paths : list string) (target_path : string)
    (w : world) : world :=
  match files w !! target_path, files w !! target_path ≫= meta with
  | Some f, Some target =>
      let st :=
        foldl (merge_source (files w) target)
              (mkMergeState ∅ ∅ ∅ false) source_paths in
      if modified st then
        let target' :=
          mkMetadata (modify (new_exif st) (exif target))
                     (modify (new_iptc st) (iptc target))
                     (modify (new_xmp st) (xmp target)) in
        mkWorld (<[target_path := set_meta f target']> (files w)) (images w) (stdout w)
      else w
  | _, _ =>
      (* except Exception as e: print(f"Failed to merge metadata: {e}") *)
      mkWorld (files w) (images w) (stdout w ++ ["Failed to merge metadata"])
  end.

(** ** [ResolveDuplicatesDialog._on_delete] *)

(** the text of the "Deletion Blocked" box: the kept image's resolution,
    the candidate's file name and the candidate's resolution *)
Record blocked_message := mkBlocked {
  kept_width : N;
  kept_height : N;
  candidate_name : string;
  candidate_width : N;
  candidate_height : N;
}.

Inductive delete_outcome :=
  | NoSelection                       (* if not self._selected_path: return *)
  | DeletionBlocked (msg : blocked_message)
  | Declined                          (* the user did not confirm *)
  | Deleted (deleted_count : nat) (errors : list string).

(** [QPixmap(p)]: a null pixmap, 0 x 0, when the file is missing or is not
    an image Qt reads *)
Definition qpixmap (w : world) (p : string) : N * N :=
  match files w !! p with
  | Some f => (pix_width f, pix_height f)
  | None => (0%N, 0%N)
  end.

Definition pixel_area (d : N * N) : N := (d.1 * d.2)%N.

Section ResolveDialog.
Context `{Pathlib}.

(** the resolution safety check: the first candidate on disk with a
    larger area than the kept image blocks the deletion.  The calls of the
    [try] block ([QPixmap], [os.path.exists], [Path.name]) return on every
    path, so its [except] branch is not reached. *)
Fixpoint safety_check (w : world) (sel : N * N) (to_delete : list string)
    : option blocked_message :=
  match to_delete with
  | [] => None
  | p :: rest =>
      if decide (is_Some (files w !! p)) then
        let cand := qpixmap w p in
        if decide (pixel_area sel < pixel_area cand)%N then
          Some (mkBlocked sel.1 sel.2 (path_name p) cand.1 cand.2)
        else safety_check w sel rest
      else safety_check w sel rest
  end.

(** one turn of [for p in to_delete]: remove the file, then the record *)
Definition delete_one (st : world * nat * list string) (p : string)
    : world * nat * list string :=
  let '(w, deleted_count, errors) := st in
  match files w !! p with
  | Some f =>
      if locked f then (w, deleted_count, errors ++ [path_name p])
      else (mkWorld (delete p (files w)) (delete p (images w)) (stdout w),
            S deleted_count, errors)
  | None =>
      (mkWorld (files w) (delete p (images w)) (stdout w), S deleted_count, errors)
  end.

(** [paths] is the group on display ([self._groups[self._current_index]],
    or the cached group in dynamic mode), [confirm] the setting
    [confirm_delete], [answer_yes] the user's answer to the question box.
    The world returned is the one the handler leaves; reloading the dialog
    afterwards is not part of it. *)
Definition on_delete (selected_path : option string) (paths : list string)
    (confirm answer_yes : bool) (w : world) : world * delete_outcome :=
  match selected_path with
  | None => (w, NoSelection)
  | Some sel =>
      if decide (sel = "") then (w, NoSelection) else
      let to_delete := filter (λ p, p ≠ sel) paths in
      match safety_check w (qpixmap w sel) to_delete with
      | Some msg => (w, DeletionBlocked msg)
      | None =>
          if confirm && negb answer_yes then (w, Declined) else
          let w1 := merge_image_metadata to_delete sel w in
          let '(w2, deleted_count, errors) :=
            foldl delete_one (w1, 0%nat, []) to_delete in
          (w2, Deleted deleted_count errors)
      end
  end.

(** ** [ResolveDuplicatesDialog._run_auto_select] *)

Record candidate := mkCandidate {
  c_path : string;
  c_mtime : Qc;
  c_size : Z;
  c_depth : Z;
}.

(** the stat loop: a path whose [stat] raises [OSError] is left out *)
Definition gather (w : world) (group : list string) : list candidate :=
  omap (λ p, f ← files w !! p;
             Some (mkCandidate p (st_mtime f) (st_size f) (path_parts_len p)))
       group.

(** the check boxes *)
Record criteria := mkCriteria {
  chk_older : bool;
  chk_larger : bool;
  chk_deeper : bool;
}.

(** [d[k] = v] on an insertion-ordered dict *)
Fixpoint dict_set {V : Type} (k : string) (v : V) (d : list (string * V))
    : list (string * V) :=
  match d with
  | [] => [(k, v)]
  | (k', v') :: d' =>
      if decide (k' = k) then (k', v) :: d' else (k', v') :: dict_set k v d'
  end.

(** [d[k] += 1]; every key used is a candidate's path, so it is present *)
Definition dict_incr (k : string) (d : list (string * Z)) : list (string * Z) :=
  map (λ '(k', v), if decide (k' = k) then (k', v + 1) else (k', v)) d.

(** [d.get(k)] *)
Fixpoint dict_get {V : Type} (k : string) (d : list (string * V)) : option V :=
  match d with
  | [] => None
  | (k', v) :: d' => if decide (k' = k) then Some v else dict_get k d'
  end.

Definition Qc_min (a b : Qc) : Qc := if Qc_leb a b then a else b.
Definition Qc_abs (a : Qc) : Qc := if Qc_leb (Q2Qc 0) a then a else (- a)%Qc.

(** [min(...)] and [max(...)] over the candidates; the lists are not
    empty where they are called *)
Definition min_mtime (cs : list candidate) : Qc :=
  match cs with
  | [] => Q2Qc 0
  | c :: cs' => foldl (λ m c', Qc_min m (c_mtime c')) (c_mtime c) cs'
  end.

Definition max_Z (l : list Z) : Z :=
  match l with
  | [] => 0
  | x :: l' => foldl Z.max x l'
  end.

Definition older_winner (cs : list candidate) (c : candidate) : bool :=
  bool_decide (Qc_abs (c_mtime c - min_mtime cs) < Q2Qc 1)%Qc.
Definition larger_winner (cs : list candidate) (c : candidate) : bool :=
  bool_decide (c_size c = max_Z (map c_size cs)).
Definition deeper_winner (cs : list candidate) (c : candidate) : bool :=
  bool_decide (c_depth c = max_Z (map c_depth cs)).

(** [for w in winners: scores[w['path']] += 1] *)
Definition award (winners : list candidate) (scores : list (string * Z))
    : list (string * Z) :=
  foldl (λ s c, dict_incr (c_path c) s) scores winners.

Definition score_table (crit : criteria) (cs : list candidate) : list (string * Z) :=
  let scores := foldl (λ d c, dict_set (c_path c) 0 d) [] cs in
  let scores :=
    if chk_older crit then award (filter (λ c, older_winner cs c) cs) scores
    else scores in
  let scores :=
    if chk_larger crit then award (filter (λ c, larger_winner cs c) cs) scores
    else scores in
  if chk_deeper crit then award (filter (λ c, deeper_winner cs c) cs) scores
  else scores.

Definition active_criteria (crit : criteria) : Z :=
  (if chk_older crit then 1 else 0) + (if chk_larger crit then 1 else 0)
  + (if chk_deeper crit then 1 else 0).

(** what the call does to the selection *)
Inductive auto_select_action :=
  | Keep_selection                 (* a bare [return] *)
  | Select_none                    (* self._select_none() *)
  | Select_path (p : string).      (* self._select_path(best[0]) *)

Definition run_auto_select (crit : criteria) (group : list string) (w : world)
    : auto_select_action :=
  match group with
  | [] => Keep_selection
  | _ =>
      let candidates := gather w group in
      match candidates with
      | [] => Keep_selection
      | _ =>
          let scores := score_table crit candidates in
          if decide (active_criteria crit = 0) then Keep_selection else
          let max_score := max_Z (map snd scores) in
          if decide (max_score = 0) then Select_none else
          let best := map fst (filter (λ kv, kv.2 = max_score) scores) in
          match best with
          | [p] => Select_path p
          | _ => Select_none
          end
      end
  end.

(** the selection of the dialog: [_selected_path] and whether the delete
    button is enabled *)
Record selection := mkSelection {
  selected_path : option string;
  delete_enabled : bool;
}.

Definition apply_action (a : auto_select_action) (s : selection) : selection :=
  match a with
  | Keep_selection => s
  | Select_none => mkSelection None false
  | Select_path p => mkSelection (Some p) true
  end.


End ResolveDialog.

(** ** [scan_folders]

    The extraction of one file ([stat], PIL, imagehash, OpenCV, hashlib, the
    optional models: lines 115-138) and the failures of sqlite and of the
    caller's callback come from outside the repository.  They are given by
    the file's position in the scan: the [i]-th file yielded by
    [iter_image_files].  [running_event.wait()] only delays a file and is
    left out. *)

Record features := mkFeatures {
  f_file_size : Z;
  f_mtime_ns : Z;
  f_width : Z;
  f_height : Z;
  f_phash : string;
  f_sharpness : Qc;
  f_sha : string;
  f_embedding : option (list Byte.byte);
  f_faces_json : option string;
  f_objects_json : option string;
}.

Record scan_env := mkScanEnv {
  extract : nat → string → result features;
  upsert_raises : nat → bool;        (* db.upsert_image raises on file i *)
  commit_raises : nat → bool;        (* the commit every 100 records raises on file i *)
  final_commit_raises : bool;        (* the db.commit() after the loop raises *)
  progress_cb : option (nat → bool → bool);
    (* None: no callback.  [cb i h]: the call made for file i raises, in the
       try block (h = false) or in the except block (h = true) *)
}.

Record PhotoDB := mkPhotoDB {
  rows : gmap string ImageRecord;        (* the connection's view of [images] *)
  committed : gmap string ImageRecord;   (* what is on disk *)
}.

Definition upsert_image (r : ImageRecord) (db : PhotoDB) : PhotoDB :=
  mkPhotoDB (<[path r := r]> (rows db)) (committed db).

Definition commit (db : PhotoDB) : PhotoDB := mkPhotoDB (rows db) (rows db).

Record ScanResult := mkScanResult {
  scanned : Z;
  indexed : Z;
  skipped : Z;
}.

Record scan_state := mkScanState {
  counters : ScanResult;
  db : PhotoDB;
  calls : list (Z * Z * Z * string);     (* the arguments of each callback call *)
}.

(** [progress_cb(scanned, indexed, skipped, str(path))], when there is a
    callback; the second component is the exception it raised *)
Definition call_progress (env : scan_env) (i : nat) (in_handler : bool)
    (p : string) (st : scan_state) : scan_state * option exn :=
  match progress_cb env with
  | None => (st, None)
  | Some raises =>
      let c := counters st in
      let st' := mkScanState c (db st) (calls st ++ [(scanned c, indexed c, skipped c, p)]) in
      (st', if raises i in_handler then Some CallbackError else None)
  end.

(** the [try] block; the state is the one the exception, if any, leaves *)
Definition try_file (env : scan_env) (i : nat) (p : string) (st : scan_state)
    : scan_state * option exn :=
  match extract env i p with
  | Raise e => (st, Some e)
  | Ok f =>
      let score :=
        image_quality_score (f_width f) (f_height f) (f_file_size f) (f_sharpness f) in
      let rec :=
        mkImageRecord p (f_sha f) (f_phash f) (f_width f) (f_height f)
          (f_file_size f) (f_mtime_ns f) score
          (f_embedding f) (f_faces_json f) (f_objects_json f) in
      if upsert_raises env i then (st, Some SqliteError) else
      let c := counters st in
      let c1 := mkScanResult (scanned c) (indexed c + 1) (skipped c) in
      let st1 := mkScanState c1 (upsert_image rec (db st)) (calls st) in
      if decide (indexed c1 `mod` 100 = 0) then
        if commit_raises env i then (st1, Some SqliteError)
        else call_progress env i false p
               (mkScanState c1 (commit (db st1)) (calls st1))
      else call_progress env i false p st1
  end.

(** one turn of [for path in iter_image_files(folders)]; [Some e]: the
    exception leaves the loop *)
Definition scan_file (env : scan_env) (i : nat) (p : string) (st : scan_state)
    : scan_state * option exn :=
  let c := counters st in
  let st0 := mkScanState (mkScanResult (scanned c + 1) (indexed c) (skipped c))
               (db st) (calls st) in
  match try_file env i p st0 with
  | (st1, None) => (st1, None)
  | (st1, Some _) =>
      (* except Exception: *)
      let c1 := counters st1 in
      let st2 := mkScanState (mkScanResult (scanned c1) (indexed c1) (skipped c1 + 1))
                   (db st1) (calls st1) in
      call_progress env i true p st2
  end.

Fixpoint scan_loop (env : scan_env) (i : nat) (paths : list string)
    (st : scan_state) : scan_state * option exn :=
  match paths with
  | [] => (st, None)
  | p :: rest =>
      match scan_file env i p st with
      | (st', None) => scan_loop env (S i) rest st'
      | (st', Some e) => (st', Some e)
      end
  end.

Definition scan_folders (env : scan_env) (db0 : PhotoDB) (paths : list string)
    : scan_state * result ScanResult :=
  let st0 := mkScanState (mkScanResult 0 0 0) db0 [] in
  match scan_loop env 0 paths st0 with
  | (st, Some e) => (st, Raise e)
  | (st, None) =>
      if final_commit_raises env then (st, Raise SqliteError)
      else (mkScanState (counters st) (commit (db st)) (calls st), Ok (counters st))
  end.

(** * The vocabulary of the properties

    Predicates, orders and reference functions the statements below use,
    and the concrete files, records and scans they are tried on. *)


(** the file fails in a way the [except] block absorbs by design: its
    extraction raised, or the store refused its record *)
Definition file_fails (env : scan_env) (i : nat) (p : string) : bool :=
  match extract env i p with
  | Raise _ => true
  | Ok _ => upsert_raises env i
  end.

Fixpoint count_failures (env : scan_env) (i : nat) (paths : list string) : Z :=
  match paths with
  | [] => 0
  | p :: rest =>
      (if file_fails env i p then 1 else 0) + count_failures env (S i) rest
  end.

(** the callback, if any, returns normally *)
Definition callback_quiet (env : scan_env) : Prop :=
  ∀ cb, progress_cb env = Some cb → ∀ i h, cb i h = false.

Definition partitioned (c : ScanResult) : Prop :=
  scanned c = indexed c + skipped c.

Definition call_partitioned (a : Z * Z * Z * string) : Prop :=
  a.1.1.1 = a.1.1.2 + a.1.2.

Definition sample_features : features :=
  mkFeatures 2000000 1700000000000000000 1920 1080 "c3d4e5f607182930"
    (Qc_of_Z 50) "9f86d081884c7d65" None None None.

Definition empty_db : PhotoDB := mkPhotoDB ∅ ∅.

(** every file is readable; the store refuses the record of the first file *)
Definition env_upsert_fails : scan_env :=
  mkScanEnv (λ _ _, Ok sample_features) (λ i, bool_decide (i = 0%nat))
    (λ _, false) false (Some (λ _ _, false)).

(** one hundred readable files; the commit made when the hundredth record
    has been written raises *)
Definition hundred_paths : list string :=
  map (λ n, "img" +:+ pretty n +:+ ".jpg") (seq 0 100).

Definition env_commit_fails : scan_env :=
  mkScanEnv (λ _ _, Ok sample_features) (λ _, false)
    (λ i, bool_decide (i = 99%nat)) false (Some (λ _ _, false)).

(** POSIX paths, for the concrete cases: the components between slashes,
    and one more part for the root of an absolute path. *)
Fixpoint posix_components (cur : string) (s : string) : list string :=
  match s with
  | EmptyString => [cur]
  | String c s' =>
      if decide (c = "/"%char) then cur :: posix_components "" s'
      else posix_components (cur +:+ String c "") s'
  end.

Definition posix_parts (s : string) : list string :=
  filter (λ c, c ≠ "") (posix_components "" s).

#[local] Instance posix_pathlib : Pathlib := {|
  path_parts_len s :=
    Z.of_nat (length (posix_parts s))
    + (match s with String "/" _ => 1 | _ => 0 end);
  path_name s := default "" (list.last (posix_parts s));
|}.

Inductive block_kind := Exif | Iptc | Xmp.

Definition block (b : block_kind) (m : metadata) : gmap string string :=
  match b with Exif => exif m | Iptc => iptc m | Xmp => xmp m end.

Definition new_block (b : block_kind) (st : merge_state) : gmap string string :=
  match b with Exif => new_exif st | Iptc => new_iptc st | Xmp => new_xmp st end.

(** the value of field [k] on the first of [sources], in order, that
    pyexiv2 can read and that has the field *)
Fixpoint first_value (fs : gmap string file) (b : block_kind)
    (sources : list string) (k : string) : option string :=
  match sources with
  | [] => None
  | s :: rest =>
      match fs !! s ≫= meta with
      | Some m =>
          match block b m !! k with
          | Some v => Some v
          | None => first_value fs b rest k
          end
      | None => first_value fs b rest k
      end
  end.

(** what the kept file holds for [k] after a merge: its own value if it
    had one, else the first candidate's *)
Definition merged_value (fs : gmap string file) (b : block_kind)
    (target : metadata) (sources : list string) (k : string) : option string :=
  match block b target !! k with
  | Some v => Some v
  | None => first_value fs b sources k
  end.

Definition merge_clean (st : merge_state) : Prop :=
  modified st = false → new_exif st = ∅ ∧ new_iptc st = ∅ ∧ new_xmp st = ∅.

(** what the deletion loop leaves of a file that was to be deleted *)
Definition after_remove (o : option file) : option file :=
  match o with
  | Some f => if locked f then Some f else None
  | None => None
  end.

Definition path_A : string := "/photos/A.jpg".
Definition path_B : string := "/photos/dup/B.jpg".

Definition file_A : file :=
  mkFile 1920 1080 (Qc_of_Z 1700000000) 2000000 false
    (Some (mkMetadata {["Exif.Image.Make" := "Canon"]} ∅ ∅)).

Definition file_B : file :=
  mkFile 800 600 (Qc_of_Z 1700000500) 500000 false
    (Some (mkMetadata
             {["Exif.Image.Make" := "Nikon"; "Exif.Image.Model" := "D50"]} ∅ ∅)).

Definition world_AB : world :=
  mkWorld {[path_A := file_A; path_B := file_B]} ∅ [].

(** the records of [l] whose content hash is [k], in the order of [l] *)
Definition class_of (l : list ImageRecord) (k : string) : list ImageRecord :=
  filter (λ r, sha256 r = k) l.

(** the content hash of [r] is shared by at least two records of [l] *)
Definition shared (l : list ImageRecord) (r : ImageRecord) : Prop :=
  (2 ≤ length (class_of l (sha256 r)))%nat.

#[global] Instance shared_dec l r : Decision (shared l r).
Proof. unfold shared. apply _. Defined.

(** the order of the groups in the output: larger groups first, and among
    groups of one size the smaller hash first *)
Definition group_before (g1 g2 : list ImageRecord) : Prop :=
  (length g2 < length g1)%nat
  ∨ (length g1 = length g2
     ∧ ∀ r1 r2, r1 ∈ g1 → r2 ∈ g2 → String.ltb (sha256 r1) (sha256 r2) = true).

(** the hashes the function keeps, in the order of the dict *)
Definition kept_hashes (records : list ImageRecord) : list string :=
  filter (λ k, (1 < length (class_of records k))%nat) (by_sha records).*1.

(** descending quality score *)
Definition score_desc (a b : ImageRecord) : Prop := (score b ≤ score a)%Qc.

(** descending quality score, and [T] between records of equal score *)
Definition score_desc_then (T : relation ImageRecord) (a b : ImageRecord) : Prop :=
  (score b ≤ score a)%Qc ∧ (score a = score b → T a b).


Definition tie_a : ImageRecord :=
  mkImageRecord "a.jpg" "11" "ff00ff00ff00ff00" 800 600 500000 0 (Qc_of_Z 5)
    None None None.
Definition tie_b : ImageRecord :=
  mkImageRecord "b.jpg" "22" "ff00ff00ff00ff00" 800 600 500000 0 (Qc_of_Z 5)
    None None None.

(** the perceptual hash of the record parses *)
Definition well_formed (r : ImageRecord) : Prop :=
  ∃ x, int16 (phash r) = Ok x.

(** the Hamming distance from [seed] to [r] is at most [threshold] *)
Definition within (threshold : Z) (seed r : ImageRecord) : Prop :=
  ∃ d, hamming_distance_hex_phash (phash seed) (phash r) = Ok d ∧ d ≤ threshold.

#[global] Instance within_dec threshold seed r : Decision (within threshold seed r).
Proof.
  unfold within.
  destruct (hamming_distance_hex_phash (phash seed) (phash r)) as [d|e].
  - destruct (decide (d ≤ threshold)) as [Hd|Hd].
    + left. eauto.
    + right. intros (d' & [= <-] & ?). done.
  - right. intros (d' & [=] & _).
Defined.


(** the clusters of the loop of [group_duplicates_by_phash], singletons
    included, in the order the loop finds them *)
Fixpoint seed_clusters (near : relation ImageRecord)
    `{∀ a b, Decision (near a b)} (fuel : nat) (remaining : list ImageRecord)
    : list (list ImageRecord) :=
  match fuel with
  | O => []
  | S fuel' =>
      match pop remaining with
      | None => []
      | Some (seed, rest) =>
          (seed :: filter (near seed) rest)
          :: seed_clusters near fuel' (filter (λ r, ¬ near seed r) rest)
      end
  end.



(** two lists of groups hold the same groups, whatever the order of the
    groups and the order inside each group *)
Definition same_partition (gs gs' : list (list ImageRecord)) : Prop :=
  ∃ gs'', gs ≡ₚ gs'' ∧ Forall2 (≡ₚ) gs'' gs'.

(** the hash of [r] is the hash of [seed] *)
Definition same_sha (seed r : ImageRecord) : Prop := sha256 r = sha256 seed.

#[global] Instance same_sha_dec seed r : Decision (same_sha seed r).
Proof. unfold same_sha. apply _. Defined.

Definition far_c : ImageRecord :=
  mkImageRecord "c.jpg" "33" "00ff00ff00ff00ff" 1920 1080 2000000 0 (Qc_of_Z 30)
    None None None.

Definition twin_a : ImageRecord :=
  mkImageRecord "a.jpg" "11" "ff00ff00ff00ff00" 1920 1080 2000000 0 (Qc_of_Z 30)
    None None None.
Definition twin_b : ImageRecord :=
  mkImageRecord "b.jpg" "11" "ff00ff00ff00ff00" 800 600 500000 0 (Qc_of_Z 9)
    None None None.

(** the points of a candidate: one for each enabled criterion whose
    winning subset it is in *)
Definition points (crit : criteria) (cs : list candidate) (c : candidate) : Z :=
  (if chk_older crit && older_winner cs c then 1 else 0)
  + (if chk_larger crit && larger_winner cs c then 1 else 0)
  + (if chk_deeper crit && deeper_winner cs c then 1 else 0).

(** [m] is the least of [l] *)
Definition is_min_Qc (l : list Qc) (m : Qc) : Prop :=
  m ∈ l ∧ ∀ x, x ∈ l → (m ≤ x)%Qc.

(** [m] is the greatest of [l] *)
Definition is_max_Z (l : list Z) (m : Z) : Prop :=
  m ∈ l ∧ ∀ x, x ∈ l → x ≤ m.

(** a score table: one entry per candidate, in order *)
Definition table (cs : list candidate) (f : candidate → Z) : list (string * Z) :=
  (λ c, (c_path c, f c)) <$> cs.

#[global] Instance candidate_eq_dec : EqDecision candidate.
Proof. solve_decision. Defined.

Definition all_criteria : criteria := mkCriteria true true true.

(** the number of one bits of a positive number *)
Fixpoint pos_popcount (p : positive) : nat :=
  match p with
  | xH => 1
  | xO q => pos_popcount q
  | xI q => S (pos_popcount q)
  end.

(** the bit positions below [k] at which [x] and [y] differ *)
Definition differing_bits (k : nat) (x y : Z) : list nat :=
  filter (λ i, Z.testbit x (Z.of_nat i) ≠ Z.testbit y (Z.of_nat i)) (seq 0 k).

(** the indexed records of [l] whose index is not in [visited] *)
Definition unvisited (visited : gset nat) (l : list (nat * ImageRecord))
    : list (nat * ImageRecord) :=
  filter (λ p, p.1 ∉ visited) l.

(** three records that carry an embedding, and a similarity matrix in which
    the first two are above the threshold and the third is not *)
Definition emb_a : ImageRecord :=
  mkImageRecord "a.jpg" "11" "ff00ff00ff00ff00" 800 600 500000 0 (Qc_of_Z 5)
    (Some [Byte.x00]) None None.
Definition emb_b : ImageRecord :=
  mkImageRecord "b.jpg" "22" "ff00ff00ff00ff01" 1920 1080 2000000 0 (Qc_of_Z 30)
    (Some [Byte.x01]) None None.
Definition emb_c : ImageRecord :=
  mkImageRecord "c.jpg" "33" "00ff00ff00ff00ff" 640 480 100000 0 (Qc_of_Z 3)
    (Some [Byte.x02]) None None.
Definition first_two_similar (valid : list ImageRecord)
    : result (nat → nat → bool) :=
  Ok (λ i j, bool_decide (i < 2 ∧ j < 2)%nat).

(** [os.remove(p)] would raise: the file is there and cannot be removed *)
Definition is_locked (w : world) (p : string) : bool :=
  match files w !! p with
  | Some f => locked f
  | None => false
  end.

(** the record [scan_folders] writes for path [p] with features [f] *)
Definition record_of (p : string) (f : features) : ImageRecord :=
  mkImageRecord p (f_sha f) (f_phash f) (f_width f) (f_height f)
    (f_file_size f) (f_mtime_ns f)
    (image_quality_score (f_width f) (f_height f) (f_file_size f) (f_sharpness f))
    (f_embedding f) (f_faces_json f) (f_objects_json f).

(** the rows after the turn of the loop for the [i]-th file *)
Definition rows_after (env : scan_env) (i : nat) (p : string)
    (rs : gmap string ImageRecord) : gmap string ImageRecord :=
  match extract env i p with
  | Ok f => if upsert_raises env i then rs else <[p := record_of p f]> rs
  | Raise _ => rs
  end.

(** two readable files; the callback raises in the [try] block of the
    first and returns normally in its handler *)
Definition env_callback_try_raises : scan_env :=
  mkScanEnv (λ _ _, Ok sample_features) (λ _, false) (λ _, false) false
    (Some (λ i h, bool_decide (i = 0%nat) && negb h)).


Definition env_quiet : scan_env :=
  mkScanEnv (λ _ _, Ok sample_features) (λ _, false) (λ _, false) false
    (Some (λ _ _, false)).

(** ** Navigation between the groups ([resolve_dialog.py], static mode)

    The dialog holds the list of groups and the index of the one on
    display. *)
Record dialog := mkDialog {
  dlg_groups : list (list string);     (* self._groups *)
  current_index : Z;                   (* self._current_index *)
}.

(** [l[i]] on a Python list: a negative index counts from the end;
    [None] is [IndexError] *)
Definition py_index {A : Type} (l : list A) (i : Z) : option A :=
  let n := Z.of_nat (length l) in
  if decide (0 ≤ i < n) then l !! Z.to_nat i
  else if decide (- n ≤ i < 0) then l !! Z.to_nat (i + n)
  else None.

(** [del l[i]]; [None] is [IndexError] *)
Definition py_del {A : Type} (l : list A) (i : Z) : option (list A) :=
  let n := Z.of_nat (length l) in
  if decide (0 ≤ i < n) then Some (delete (Z.to_nat i) l)
  else if decide (- n ≤ i < 0) then Some (delete (Z.to_nat (i + n)) l)
  else None.

(** what [_load_group] does to the index: nothing when there is no group,
    else the index is clamped *)
Definition load_group_index (d : dialog) : dialog :=
  let total := Z.of_nat (length (dlg_groups d)) in
  if decide (total = 0) then d else
  let i := if decide (current_index d < 0) then 0 else current_index d in
  let i := if decide (total ≤ i) then total - 1 else i in
  mkDialog (dlg_groups d) i.

Definition on_prev (d : dialog) : dialog :=
  if decide (0 < current_index d)
  then load_group_index (mkDialog (dlg_groups d) (current_index d - 1))
  else d.

Definition on_next (d : dialog) : dialog :=
  if decide (current_index d < Z.of_nat (length (dlg_groups d)) - 1)
  then load_group_index (mkDialog (dlg_groups d) (current_index d + 1))
  else d.

Definition remove_current_group_from_list (d : dialog) : option dialog :=
  gs ← py_del (dlg_groups d) (current_index d);
  let i := if decide (Z.of_nat (length gs) ≤ current_index d)
           then Z.of_nat (length gs) - 1 else current_index d in
  Some (load_group_index (mkDialog gs i)).

(** the group on display: [self._groups[self._current_index]] *)
Definition current_group (d : dialog) : option (list string) :=
  py_index (dlg_groups d) (current_index d).

(** ** [ResolveDuplicatesDialog._on_ignore]

    [paths] is the group on display, [answer_yes] the user's answer to the
    question box. *)
Definition on_ignore (paths : list string) (answer_yes : bool) (w : world) : world :=
  if negb answer_yes then w
  else mkWorld (files w) (foldl (λ im p, delete p im) (images w) paths) (stdout w).

(** ** [get_image_metadata] ([utils.py])

    [exif] is what [pyexiv2] reads from the file, [None] when it raises.
    [str.strip] and the substring test [a in b] are Python's. *)
Section ImageMetadata.
Variable strip : string → string.
Variable contains : string → string → bool.

(** the truth value of [d.get(k)]: a missing or empty value is false *)
Definition truthy (o : option string) : bool :=
  match o with
  | Some s => bool_decide (s ≠ "")
  | None => false
  end.

Definition get_image_metadata (exif : option (gmap string string))
    : list (string * string) :=
  match exif with
  | None =>
      dict_set "GPS" "<MISSING>"
        (dict_set "Date" "<MISSING>" (dict_set "Device" "<MISSING>" []))
  | Some exif =>
      let make := strip (default "" (exif !! "Exif.Image.Make")) in
      let model := strip (default "" (exif !! "Exif.Image.Model")) in
      let meta : list (string * string) := [] in
      let meta :=
        if decide (model ≠ "") then
          dict_set "Device"
            (if contains make model then model else make +:+ " " +:+ model) meta
        else if decide (make ≠ "") then dict_set "Device" make meta
        else meta in
      let date :=
        if truthy (exif !! "Exif.Photo.DateTimeOriginal")
        then exif !! "Exif.Photo.DateTimeOriginal"
        else exif !! "Exif.Image.DateTime" in
      let meta :=
        if truthy date then dict_set "Date" (default "" date) meta else meta in
      let lat := exif !! "Exif.GPSInfo.GPSLatitude" in
      let lon := exif !! "Exif.GPSInfo.GPSLongitude" in
      let meta :=
        if truthy lat && truthy lon then dict_set "GPS" "Yes" meta
        else dict_set "GPS" "<MISSING>" meta in
      let meta :=
        if decide (dict_get "Device" meta = None)
        then dict_set "Device" "<MISSING>" meta else meta in
      if decide (dict_get "Date" meta = None)
      then dict_set "Date" "<MISSING>" meta else meta
  end.
End ImageMetadata.

(** the index is one of a group *)
Definition in_range (d : dialog) : Prop :=
  0 ≤ current_index d < Z.of_nat (length (dlg_groups d)).

Definition three_groups : dialog :=
  mkDialog [["a.jpg"; "b.jpg"]; ["c.jpg"; "d.jpg"]; ["e.jpg"; "f.jpg"]] 1.

(** * Properties *)

(** ** The stable sort *)

Section PySortFacts.
Context {A K : Type} (lek : K → K → bool) (key : A → K).
Hypothesis lek_total : ∀ a b, lek a b = true ∨ lek b a = true.
Hypothesis lek_trans : ∀ a b c, lek a b = true → lek b c = true → lek a c = true.

Lemma insert_by_perm (x : A) (l : list A) : insert_by lek key x l ≡ₚ x :: l.
Proof using Type.
  induction l as [|y l IH]; simpl; [done|].
  destruct (lek (key x) (key y)); [done|].
  rewrite IH. apply Permutation_swap.
Qed.

Lemma py_sorted_perm (l : list A) : py_sorted lek key l ≡ₚ l.
Proof using Type.
  induction l as [|x l IH]; simpl; [done|].
  by rewrite insert_by_perm, IH.
Qed.

Lemma py_sorted_length (l : list A) : length (py_sorted lek key l) = length l.
Proof using Type. by rewrite py_sorted_perm. Qed.



Lemma py_sorted_sorted (l : list A) :
  StronglySorted (λ a b, lek (key a) (key b) = true) (py_sorted lek key l).
Proof using lek_total lek_trans.
  induction l as [|x l IH]; simpl; [constructor|].
  assert (Hgen : ∀ s, StronglySorted (λ a b, lek (key a) (key b) = true) s →
            StronglySorted (λ a b, lek (key a) (key b) = true) (insert_by lek key x s)).
  { clear IH. induction s as [|y s IHs]; intros Hs; simpl.
    { repeat constructor. }
    apply (proj1 (StronglySorted_cons _ _ _)) in Hs as [Hy Hs].
    destruct (lek (key x) (key y)) eqn:Hxy.
    - constructor; [by constructor|]. constructor; [done|].
      rewrite Forall_forall in Hy |- *. eauto.
    - constructor; [auto|]. rewrite insert_by_perm. constructor; [|done].
      destruct (lek_total (key x) (key y)); congruence. }
  auto.
Qed.
End PySortFacts.

(** ** Orders on the keys *)

Lemma Qc_leb_le (x y : Qc) : Qc_leb x y = true ↔ (x ≤ y)%Qc.
Proof. unfold Qc_leb. by rewrite bool_decide_eq_true. Qed.

Lemma Qc_leb_total (x y : Qc) : Qc_leb x y = true ∨ Qc_leb y x = true.
Proof. rewrite !Qc_leb_le. apply (total Qcle). Qed.




Lemma ascii_compare_trans (c : comparison) (x y z : ascii) :
  Ascii.compare x y = c → Ascii.compare y z = c → Ascii.compare x z = c.
Proof.
  unfold Ascii.compare. destruct c; intros H1 H2.
  - apply N.compare_eq_iff in H1, H2. apply N.compare_eq_iff. congruence.
  - rewrite N.compare_lt_iff in *. lia.
  - rewrite N.compare_gt_iff in *. lia.
Qed.

Lemma string_compare_refl (s : string) : String.compare s s = Eq.
Proof.
  induction s as [|c s IH]; simpl; [done|].
  unfold Ascii.compare. by rewrite N.compare_refl.
Qed.

Lemma string_compare_lt_trans (x y z : string) :
  String.compare x y = Lt → String.compare y z = Lt → String.compare x z = Lt.
Proof.
  revert y z. induction x as [|a x IH]; intros [|b y] [|c z]; simpl; try done.
  destruct (Ascii.compare a b) eqn:Hab; [|intros _|done].
  - apply Ascii.compare_eq_iff in Hab as ->.
    destruct (Ascii.compare b c); eauto.
  - destruct (Ascii.compare b c) eqn:Hbc; [| |done].
    + apply Ascii.compare_eq_iff in Hbc as <-. by rewrite Hab.
    + by rewrite (ascii_compare_trans Lt a b c).
Qed.

Lemma string_leb_spec (x y : string) :
  String.leb x y = true ↔ String.compare x y = Lt ∨ x = y.
Proof.
  unfold String.leb. split.
  - destruct (String.compare x y) eqn:Hc; [|by left|done].
    right. by apply String.compare_eq_iff.
  - intros [-> | ->]; [done|]. by rewrite string_compare_refl.
Qed.

Lemma string_leb_trans (x y z : string) :
  String.leb x y = true → String.leb y z = true → String.leb x z = true.
Proof.
  rewrite !string_leb_spec. intros [Hxy | ->] [Hyz | ->]; eauto.
  left. eapply string_compare_lt_trans; eauto.
Qed.

Section PairOrder.
Context {K2 : Type} (leb2 : K2 → K2 → bool).
Hypothesis leb2_total : ∀ a b, leb2 a b = true ∨ leb2 b a = true.
Hypothesis leb2_trans : ∀ a b c, leb2 a b = true → leb2 b c = true → leb2 a c = true.

Lemma pair_leb_spec (a b : Z * K2) :
  pair_leb Z.ltb Z.eqb leb2 a b = true ↔
  a.1 < b.1 ∨ (a.1 = b.1 ∧ leb2 a.2 b.2 = true).
Proof using Type.
  unfold pair_leb. rewrite orb_true_iff, andb_true_iff, Z.ltb_lt, Z.eqb_eq. tauto.
Qed.

Lemma pair_leb_total (a b : Z * K2) :
  pair_leb Z.ltb Z.eqb leb2 a b = true ∨ pair_leb Z.ltb Z.eqb leb2 b a = true.
Proof using leb2_total.
  rewrite !pair_leb_spec.
  destruct (Z.lt_trichotomy a.1 b.1) as [?|[?|?]]; [auto| |auto].
  destruct (leb2_total a.2 b.2); auto.
Qed.

Lemma pair_leb_trans (a b c : Z * K2) :
  pair_leb Z.ltb Z.eqb leb2 a b = true →
  pair_leb Z.ltb Z.eqb leb2 b c = true →
  pair_leb Z.ltb Z.eqb leb2 a c = true.
Proof using leb2_trans.
  rewrite !pair_leb_spec. intros [?|[? ?]] [?|[? ?]]; [left; lia ..|].
  right. split; [lia|eauto].
Qed.
End PairOrder.

(** ** The quality score *)


(** ** The scan *)

Section ScanFacts.
Variable env : scan_env.
Hypothesis no_commit_failure : ∀ i, commit_raises env i = false.
Hypothesis quiet : callback_quiet env.

Lemma call_progress_quiet i h p st :
  ∃ st', call_progress env i h p st = (st', None)
         ∧ counters st' = counters st
         ∧ (partitioned (counters st) → Forall call_partitioned (calls st) →
            Forall call_partitioned (calls st')).
Proof using quiet.
  unfold call_progress. destruct (progress_cb env) as [cb|] eqn:Hcb.
  - rewrite (quiet cb Hcb). eexists; split; [done|]. split; [done|].
    simpl. intros Hp Hc. apply Forall_app_2; [done|]. by repeat constructor.
  - eauto.
Qed.

Lemma scan_file_counters i p st :
  ∃ st', scan_file env i p st = (st', None)
    ∧ scanned (counters st') = scanned (counters st) + 1
    ∧ indexed (counters st')
      = indexed (counters st) + (if file_fails env i p then 0 else 1)
    ∧ skipped (counters st')
      = skipped (counters st) + (if file_fails env i p then 1 else 0)
    ∧ (partitioned (counters st) → Forall call_partitioned (calls st) →
       Forall call_partitioned (calls st')).
Proof using no_commit_failure quiet.
  unfold scan_file, try_file, file_fails.
  destruct (extract env i p) as [f|e]; [destruct (upsert_raises env i)|].
  - edestruct call_progress_quiet as (st' & -> & Hc & Hp).
    exists st'. rewrite Hc. simpl. repeat split; [lia..|].
    intros Hpart. apply Hp. unfold partitioned in *. simpl. lia.
  - rewrite no_commit_failure. case_decide.
    + edestruct call_progress_quiet as (st' & -> & Hc & Hp).
      exists st'. rewrite Hc. simpl. repeat split; [lia..|].
      intros Hpart. apply Hp. unfold partitioned in *. simpl. lia.
    + edestruct call_progress_quiet as (st' & -> & Hc & Hp).
      exists st'. rewrite Hc. simpl. repeat split; [lia..|].
      intros Hpart. apply Hp. unfold partitioned in *. simpl. lia.
  - edestruct call_progress_quiet as (st' & -> & Hc & Hp).
    exists st'. rewrite Hc. simpl. repeat split; [lia..|].
    intros Hpart. apply Hp. unfold partitioned in *. simpl. lia.
Qed.

Lemma scan_loop_counters paths : ∀ i st,
  ∃ st', scan_loop env i paths st = (st', None)
    ∧ scanned (counters st') = scanned (counters st) + Z.of_nat (length paths)
    ∧ indexed (counters st')
      = indexed (counters st) + Z.of_nat (length paths) - count_failures env i paths
    ∧ skipped (counters st') = skipped (counters st) + count_failures env i paths
    ∧ (partitioned (counters st) → Forall call_partitioned (calls st) →
       Forall call_partitioned (calls st')).
Proof using no_commit_failure quiet.
  induction paths as [|p rest IH]; intros i st.
  { exists st. simpl. repeat split; [lia..|done]. }
  destruct (scan_file_counters i p st) as (st1 & Hf & Hs & Hi & Hk & Hp).
  destruct (IH (S i) st1) as (st2 & Hl & Hs2 & Hi2 & Hk2 & Hp2).
  exists st2. cbn [scan_loop count_failures length]. rewrite Hf, Hl.
  repeat split; [destruct (file_fails env i p); lia..|].
  intros Hpart Hc. apply Hp2; [|by apply Hp].
  unfold partitioned in *. destruct (file_fails env i p); lia.
Qed.
End ScanFacts.

(** Away from the two calls that can raise after [indexed += 1], every
    callback call and the final result satisfy scanned = indexed + skipped. *)
Lemma scan_counters_partitioned (env : scan_env) (db0 : PhotoDB) (paths : list string) :
  (∀ i, commit_raises env i = false) →
  callback_quiet env →
  Forall call_partitioned (calls (scan_folders env db0 paths).1)
  ∧ ∀ c, (scan_folders env db0 paths).2 = Ok c → partitioned c.
Proof.
  intros Hc Hq. unfold scan_folders.
  destruct (scan_loop_counters env Hc Hq paths 0%nat
              (mkScanState (mkScanResult 0 0 0) db0 []))
    as (st & -> & Hs & Hi & Hk & Hp).
  assert (Forall call_partitioned (calls st)) as Hcalls.
  { apply Hp; [done|constructor]. }
  destruct (final_commit_raises env); simpl; (split; [done|]).
  - done.
  - intros c [= <-]. unfold partitioned. simpl in *. lia.
Qed.


(** *** Concrete scans *)



(** C10 at this input: the hundredth file is counted as indexed and as
    skipped; the last callback call and the result carry
    scanned = 100, indexed = 100, skipped = 1. *)
Lemma scan_commit_failure_double_count :
  (scan_folders env_commit_fails empty_db hundred_paths).2
    = Ok (mkScanResult 100 100 1)
  ∧ list.last (calls (scan_folders env_commit_fails empty_db hundred_paths).1)
    = Some (100, 100, 1, "img99.jpg")
  ∧ ¬ partitioned (mkScanResult 100 100 1).
Proof.
  split; [vm_compute; reflexivity|].
  split; [vm_compute; reflexivity|].
  unfold partitioned. simpl. lia.
Qed.

(** ** Deleting the other files of a group *)

Section DeleteFacts.
Context `{Pathlib}.

Lemma qpixmap_missing (w : world) (p : string) :
  files w !! p = None → pixel_area (qpixmap w p) = 0%N.
Proof. unfold qpixmap. by intros ->. Qed.


End DeleteFacts.

(** ** The metadata merge *)

Section MergeFacts.
Implicit Types (target src new : gmap string string) (k : string).

Lemma merge_items_lookup target (l : list (string * string)) k :
  NoDup l.*1 → ∀ new m,
  (foldl (λ '(new, modified) '(k, v),
            if decide (target !! k = None ∧ new !! k = None)
            then (<[k:=v]> new, true) else (new, modified)) (new, m) l).1 !! k
  = match new !! k with
    | Some v => Some v
    | None =>
        match target !! k with
        | Some _ => None
        | None => (list_to_map l : gmap string string) !! k
        end
    end.
Proof.
  induction l as [|[k0 v0] l IH]; intros Hnd new m; simpl.
  { rewrite lookup_empty. by destruct (new !! k), (target !! k). }
  apply NoDup_cons in Hnd as [Hk0 Hnd].
  case_decide as Hc.
  - destruct Hc as [Ht Hn]. rewrite IH by done.
    destruct (decide (k = k0)) as [->|Hne].
    + rewrite !lookup_insert_eq, Hn, Ht. done.
    + by rewrite !lookup_insert_ne.
  - rewrite IH by done.
    destruct (decide (k = k0)) as [->|Hne].
    + rewrite lookup_insert_eq.
      destruct (new !! k0) eqn:Hn; [done|].
      destruct (target !! k0) eqn:Ht; [done|]. by destruct Hc.
    + by rewrite lookup_insert_ne.
Qed.

Lemma merge_items_flag target (l : list (string * string)) :
  ∀ new,
  (foldl (λ '(new, modified) '(k, v),
            if decide (target !! k = None ∧ new !! k = None)
            then (<[k:=v]> new, true) else (new, modified)) (new, true) l).2 = true.
Proof.
  induction l as [|[k0 v0] l IH]; intros new; simpl; [done|].
  case_decide; apply IH.
Qed.

Lemma merge_items_unmodified target (l : list (string * string)) :
  ∀ new m,
  let r := foldl (λ '(new, modified) '(k, v),
            if decide (target !! k = None ∧ new !! k = None)
            then (<[k:=v]> new, true) else (new, modified)) (new, m) l in
  r.2 = false → m = false ∧ r.1 = new.
Proof.
  induction l as [|[k0 v0] l IH]; intros new m; simpl; [done|].
  case_decide.
  - intros Hr. by rewrite merge_items_flag in Hr.
  - apply IH.
Qed.

Lemma merge_block_lookup target src new (m : bool) k :
  (merge_block target src (new, m)).1 !! k
  = match new !! k with
    | Some v => Some v
    | None => match target !! k with Some _ => None | None => src !! k end
    end.
Proof.
  unfold merge_block. rewrite merge_items_lookup by apply NoDup_fst_map_to_list.
  by rewrite list_to_map_to_list.
Qed.

Lemma merge_block_unmodified target src new (m : bool) :
  (merge_block target src (new, m)).2 = false →
  m = false ∧ (merge_block target src (new, m)).1 = new.
Proof. apply merge_items_unmodified. Qed.

Lemma merge_source_lookup (fs : gmap string file) (target : metadata)
    (st : merge_state) (s : string) (b : block_kind) k :
  new_block b (merge_source fs target st s) !! k
  = match new_block b st !! k with
    | Some v => Some v
    | None =>
        match block b target !! k with
        | Some _ => None
        | None => (fs !! s ≫= meta) ≫= (λ m, block b m !! k)
        end
    end.
Proof.
  unfold merge_source. destruct (fs !! s ≫= meta) as [src|] eqn:Hs; simpl.
  - destruct (merge_block (exif target) (exif src) _) as [ne m1] eqn:H1.
    destruct (merge_block (iptc target) (iptc src) _) as [ni m2] eqn:H2.
    destruct (merge_block (xmp target) (xmp src) _) as [nx m3] eqn:H3.
    destruct b; simpl.
    + by rewrite <- (merge_block_lookup (exif target) (exif src) _ (modified st)), H1.
    + by rewrite <- (merge_block_lookup (iptc target) (iptc src) _ m1), H2.
    + by rewrite <- (merge_block_lookup (xmp target) (xmp src) _ m2), H3.
  - by destruct (new_block b st !! k), (block b target !! k).
Qed.

Lemma merge_source_clean (fs : gmap string file) (target : metadata)
    (st : merge_state) (s : string) :
  merge_clean st → merge_clean (merge_source fs target st s).
Proof.
  unfold merge_clean, merge_source. intros Hst.
  destruct (fs !! s ≫= meta) as [src|]; [|done].
  destruct (merge_block (exif target) (exif src) _) as [ne m1] eqn:H1.
  destruct (merge_block (iptc target) (iptc src) _) as [ni m2] eqn:H2.
  destruct (merge_block (xmp target) (xmp src) _) as [nx m3] eqn:H3.
  simpl. intros ->.
  pose proof (merge_block_unmodified (xmp target) (xmp src) (new_xmp st) m2) as Hx.
  rewrite H3 in Hx. simpl in Hx. destruct Hx as [-> ->]; [done|].
  pose proof (merge_block_unmodified (iptc target) (iptc src) (new_iptc st) m1) as Hi.
  rewrite H2 in Hi. simpl in Hi. destruct Hi as [-> ->]; [done|].
  pose proof (merge_block_unmodified (exif target) (exif src) (new_exif st)
                (modified st)) as He.
  rewrite H1 in He. simpl in He. destruct He as [Hm ->]; [done|]. auto.
Qed.

Lemma merge_sources_lookup (fs : gmap string file) (target : metadata)
    (sources : list string) (b : block_kind) k : ∀ st,
  new_block b (foldl (merge_source fs target) st sources) !! k
  = match new_block b st !! k with
    | Some v => Some v
    | None =>
        match block b target !! k with
        | Some _ => None
        | None => first_value fs b sources k
        end
    end.
Proof.
  induction sources as [|s rest IH]; intros st; simpl.
  { by destruct (new_block b st !! k), (block b target !! k). }
  rewrite IH, merge_source_lookup.
  destruct (new_block b st !! k); [done|].
  destruct (block b target !! k); [done|].
  destruct (fs !! s ≫= meta) as [m|]; simpl; [|done].
  by destruct (block b m !! k).
Qed.

Lemma merge_sources_clean (fs : gmap string file) (target : metadata)
    (sources : list string) : ∀ st,
  merge_clean st → merge_clean (foldl (merge_source fs target) st sources).
Proof.
  induction sources as [|s rest IH]; intros st Hst; simpl; [done|].
  by apply IH, merge_source_clean.
Qed.

Lemma set_meta_id (f : file) (m : metadata) : meta f = Some m → set_meta f m = f.
Proof. destruct f. simpl. by intros ->. Qed.

(** The merge on a kept file pyexiv2 can read. *)
Lemma merge_image_metadata_readable (sources : list string) (target_path : string)
    (w : world) (f : file) (tm : metadata) :
  files w !! target_path = Some f →
  meta f = Some tm →
  ∃ tm',
    files (merge_image_metadata sources target_path w)
      = <[target_path := set_meta f tm']> (files w)
    ∧ (∀ b k, block b tm' !! k = merged_value (files w) b tm sources k)
    ∧ images (merge_image_metadata sources target_path w) = images w
    ∧ stdout (merge_image_metadata sources target_path w) = stdout w.
Proof.
  intros Hf Hm. unfold merge_image_metadata. rewrite Hf. simpl. rewrite Hm.
  set (st := foldl _ _ sources).
  assert (Hlook : ∀ b k, new_block b st !! k
            = match block b tm !! k with
              | Some _ => None
              | None => first_value (files w) b sources k
              end).
  { intros b k. unfold st. rewrite merge_sources_lookup.
    by destruct b; simpl; rewrite lookup_empty. }
  destruct (modified st) eqn:Hmod.
  - eexists. split; [done|]. split; [|done].
    intros b k. unfold merged_value.
    assert (block b (mkMetadata (modify (new_exif st) (exif tm))
                       (modify (new_iptc st) (iptc tm))
                       (modify (new_xmp st) (xmp tm)))
            = new_block b st ∪ block b tm) as -> by by destruct b.
    rewrite lookup_union, Hlook.
    destruct (block b tm !! k); [done|].
    by destruct (first_value (files w) b sources k).
  - exists tm. split; [by rewrite set_meta_id, insert_id|]. split; [|done].
    intros b k. unfold merged_value.
    destruct (block b tm !! k) eqn:Hb; [done|].
    specialize (Hlook b k). rewrite Hb in Hlook. rewrite <- Hlook.
    destruct (merge_sources_clean (files w) tm sources (mkMergeState ∅ ∅ ∅ false))
      as (He & Hi & Hx); [done|done|].
    fold st in He, Hi, Hx. by destruct b; simpl; rewrite ?He, ?Hi, ?Hx.
Qed.

(** The merge on a kept file pyexiv2 cannot open: a warning is printed
    and nothing else changes. *)
Lemma merge_image_metadata_unreadable (sources : list string)
    (target_path : string) (w : world) :
  files w !! target_path ≫= meta = None →
  merge_image_metadata sources target_path w
  = mkWorld (files w) (images w) (stdout w ++ ["Failed to merge metadata"]).
Proof.
  unfold merge_image_metadata. intros Hm. rewrite Hm.
  by destruct (files w !! target_path).
Qed.
End MergeFacts.

Section DeleteMergeFacts.
Context `{Pathlib}.

Lemma after_remove_idemp (o : option file) :
  after_remove (after_remove o) = after_remove o.
Proof. destruct o as [f|]; simpl; [|done]. destruct (locked f) eqn:Hl; simpl; by rewrite ?Hl. Qed.

Lemma delete_one_files (st : world * nat * list string) (q p : string) :
  files (delete_one st q).1.1 !! p
  = if decide (p = q) then after_remove (files st.1.1 !! p) else files st.1.1 !! p.
Proof.
  destruct st as [[w n] errs]. unfold delete_one. simpl.
  destruct (files w !! q) as [f|] eqn:Hq.
  - destruct (locked f) eqn:Hl; simpl.
    + case_decide as Hp; [subst; by rewrite Hq; simpl; rewrite Hl|done].
    + case_decide as Hp.
      * subst. by rewrite lookup_delete_eq, Hq; simpl; rewrite Hl.
      * by rewrite lookup_delete_ne.
  - simpl. case_decide as Hp; [subst; by rewrite Hq|done].
Qed.


Lemma delete_loop_files (to_delete : list string) (p : string) : ∀ st,
  files (foldl delete_one st to_delete).1.1 !! p
  = if decide (p ∈ to_delete) then after_remove (files st.1.1 !! p)
    else files st.1.1 !! p.
Proof.
  induction to_delete as [|q rest IH]; intros st; cbn [foldl].
  { rewrite decide_False; [done|apply not_elem_of_nil]. }
  rewrite IH, delete_one_files.
  destruct (decide (p = q)) as [->|Hpq].
  - rewrite (decide_True (P := q ∈ q :: rest)) by left.
    case_decide; [apply after_remove_idemp|done].
  - destruct (decide (p ∈ rest)) as [Hr|Hr].
    + rewrite decide_True; [done|by right].
    + rewrite decide_False; [done|]. rewrite elem_of_cons. tauto.
Qed.


End DeleteMergeFacts.

(** *** A concrete group: A is 1920 x 1080, B is 800 x 600 *)


(** keeping A and deleting B goes through; B's [Model] reaches A, A's own
    [Make] stays *)
Example delete_B_keep_A :
  ∃ w', on_delete (Some path_A) [path_A; path_B] true true world_AB
        = (w', Deleted 1 [])
    ∧ files w' !! path_B = None
    ∧ (files w' !! path_A ≫= meta) ≫= (λ m, exif m !! "Exif.Image.Model") = Some "D50"
    ∧ (files w' !! path_A ≫= meta) ≫= (λ m, exif m !! "Exif.Image.Make") = Some "Canon".
Proof. eexists. split; [vm_compute; reflexivity|]. by vm_compute. Qed.


(** ** Grouping by content hash *)

Section ListFacts.
Context {A : Type}.

Lemma StronglySorted_impl_elem (R R' : relation A) (l : list A) :
  (∀ a b, a ∈ l → b ∈ l → R a b → R' a b) →
  StronglySorted R l → StronglySorted R' l.
Proof.
  induction l as [|x l IH]; intros Himp Hs; [constructor|].
  apply (proj1 (StronglySorted_cons _ _ _)) in Hs as [Hx Hs].
  constructor.
  - apply IH; [|done]. intros a b Ha Hb. apply Himp; by right.
  - rewrite Forall_forall in Hx |- *. intros y Hy.
    apply Himp; [left|by right|auto].
Qed.

Lemma StronglySorted_NoDup_fmap {B : Type} (R : relation A) (f : A → B) (l : list A) :
  StronglySorted R l → NoDup (f <$> l) →
  StronglySorted (λ a b, R a b ∧ f a ≠ f b) l.
Proof.
  induction l as [|x l IH]; intros Hs Hnd; [constructor|].
  apply (proj1 (StronglySorted_cons _ _ _)) in Hs as [Hx Hs].
  rewrite fmap_cons in Hnd. apply NoDup_cons in Hnd as [Hnx Hnd].
  constructor; [auto|].
  rewrite Forall_forall in Hx |- *. intros y Hy. split; [auto|].
  intros Heq. apply Hnx. rewrite Heq. by apply list_elem_of_fmap_2.
Qed.


Lemma concat_fmap_perm (f : list A → list A) (ls : list (list A)) :
  (∀ l, f l ≡ₚ l) → concat (f <$> ls) ≡ₚ concat ls.
Proof.
  intros Hf. induction ls as [|l ls IH]; simpl; [done|]. by rewrite Hf, IH.
Qed.

Lemma filter_split_perm (P Q : A → Prop) `{∀ x, Decision (P x)}
    `{∀ x, Decision (Q x)} (l : list A) :
  (∀ x, P x → Q x → False) →
  filter (λ x, P x ∨ Q x) l ≡ₚ filter P l ++ filter Q l.
Proof.
  intros Hdisj. induction l as [|x l IH]; [done|].
  rewrite !filter_cons.
  destruct (decide (P x)) as [HP|HP], (decide (Q x)) as [HQ|HQ].
  - destruct (Hdisj x HP HQ).
  - rewrite decide_True by auto. simpl. by rewrite IH.
  - rewrite decide_True by auto. rewrite IH. by rewrite Permutation_middle.
  - rewrite decide_False by tauto. done.
Qed.

Lemma filter_none (P : A → Prop) `{∀ x, Decision (P x)} (l : list A) :
  (∀ x, x ∈ l → ¬ P x) → filter P l = [].
Proof.
  induction l as [|x l IH]; intros Hl; [done|].
  rewrite filter_cons_False by (apply Hl; left).
  apply IH. intros y Hy. apply Hl. by right.
Qed.
End ListFacts.

Section BySha.
Implicit Types (l : list ImageRecord) (k : string).

Lemma setdefault_append_keys {V : Type} k (r : V) (d : list (string * list V)) :
  (setdefault_append k r d).*1
  = if decide (k ∈ d.*1) then d.*1 else d.*1 ++ [k].
Proof.
  induction d as [|[k' v] d IH]; cbn [setdefault_append fmap list_fmap].
  { rewrite decide_False; [done|apply not_elem_of_nil]. }
  destruct (decide (k' = k)) as [->|Hne]; cbn [fmap list_fmap fst].
  - rewrite decide_True; [done|left].
  - fold (fmap (M:=list) (@fst string (list V)) (setdefault_append k r d)).
    fold (fmap (M:=list) (@fst string (list V)) d).
    rewrite IH. destruct (decide (k ∈ d.*1)) as [Hin|Hin].
    + rewrite decide_True; [done|by right].
    + rewrite decide_False; [done|]. rewrite elem_of_cons. naive_solver.
Qed.

Lemma setdefault_append_Forall {V : Type} (Q Q' : string * list V → Prop)
    k (r : V) (d : list (string * list V)) :
  (∀ k' v, Q (k', v) → k' ≠ k → Q' (k', v)) →
  (∀ v, Q (k, v) → Q' (k, v ++ [r])) →
  (k ∉ d.*1 → Q' (k, [r])) →
  NoDup d.*1 →
  Forall Q d → Forall Q' (setdefault_append k r d).
Proof.
  intros Hother Hsame. induction d as [|[k' v] d IH]; intros Hnew Hnd HQ; simpl.
  { constructor; [|constructor]. apply Hnew, not_elem_of_nil. }
  apply Forall_cons_1 in HQ as [Hkv HQ].
  rewrite fmap_cons in Hnd. apply NoDup_cons in Hnd as [Hk' Hnd].
  destruct (decide (k' = k)) as [->|Hne].
  - constructor; [auto|].
    rewrite Forall_forall in HQ |- *. intros [k'' v''] Hin.
    apply Hother; [auto|]. intros ->. apply Hk'.
    by apply (list_elem_of_fmap_2 fst) in Hin.
  - constructor; [auto|]. apply IH; [|done..].
    intros Hk. apply Hnew. rewrite fmap_cons, elem_of_cons. naive_solver.
Qed.

Lemma by_sha_snoc l (r : ImageRecord) :
  by_sha (l ++ [r]) = setdefault_append (sha256 r) r (by_sha l).
Proof. unfold by_sha. by rewrite foldl_app. Qed.

Lemma by_sha_keys l k : k ∈ (by_sha l).*1 ↔ ∃ r, r ∈ l ∧ sha256 r = k.
Proof.
  induction l as [|r l IH] using rev_ind.
  { split; [by intros ?%elem_of_nil|]. by intros (r & ?%elem_of_nil & _). }
  rewrite by_sha_snoc, setdefault_append_keys.
  assert ((∃ r0, r0 ∈ l ++ [r] ∧ sha256 r0 = k)
          ↔ (∃ r0, r0 ∈ l ∧ sha256 r0 = k) ∨ sha256 r = k) as ->.
  { split.
    - intros (r0 & Hin & ?). apply elem_of_app in Hin as [?|Hin]; [eauto|].
      apply list_elem_of_singleton in Hin as ->. eauto.
    - intros [(r0 & ? & ?)| ?]; [exists r0|exists r];
        rewrite elem_of_app, list_elem_of_singleton; auto. }
  rewrite <- IH. case_decide as Hin.
  - split; [auto|]. intros [?| <-]; done.
  - rewrite elem_of_app, list_elem_of_singleton. naive_solver.
Qed.

Lemma by_sha_keys_NoDup l : NoDup (by_sha l).*1.
Proof.
  induction l as [|r l IH] using rev_ind; [constructor|].
  rewrite by_sha_snoc, setdefault_append_keys. case_decide as Hin; [done|].
  apply NoDup_app. split; [done|]. split; [|apply NoDup_singleton].
  intros k Hk Hk'. apply list_elem_of_singleton in Hk' as ->. done.
Qed.

Lemma class_of_snoc l (r : ImageRecord) k :
  class_of (l ++ [r]) k
  = class_of l k ++ (if decide (sha256 r = k) then [r] else []).
Proof.
  unfold class_of. by rewrite filter_app.
Qed.

Lemma by_sha_values l : Forall (λ kv, kv.2 = class_of l kv.1) (by_sha l).
Proof.
  induction l as [|r l IH] using rev_ind; [constructor|].
  rewrite by_sha_snoc.
  eapply setdefault_append_Forall; [..|apply by_sha_keys_NoDup|exact IH].
  - intros k' v Hv Hne. simpl in *. rewrite class_of_snoc, decide_False by done.
    by rewrite app_nil_r.
  - intros v Hv. simpl in *. rewrite class_of_snoc, decide_True by done.
    by rewrite Hv.
  - intros Hk. simpl. rewrite class_of_snoc, decide_True by done.
    assert (class_of l (sha256 r) = []) as ->; [|done].
    unfold class_of. apply filter_none.
    intros r0 Hr0 Heq. apply Hk, by_sha_keys. eauto.
Qed.

Lemma by_sha_classes l : (by_sha l).*2 = class_of l <$> (by_sha l).*1.
Proof.
  pose proof (by_sha_values l) as Hv.
  induction (by_sha l) as [|[k v] d IH]; [done|].
  apply Forall_cons_1 in Hv as [Hkv Hv]. rewrite !fmap_cons. simpl in *.
  by rewrite Hkv, IH.
Qed.
End BySha.

Section ShaGroups.
Implicit Types (l records : list ImageRecord) (k : string).

Lemma map_fmap {A B : Type} (f : A → B) (l : list A) : map f l = f <$> l.
Proof. reflexivity. Qed.

Lemma filter_fmap_list {A B : Type} (f : A → B) (P : B → Prop)
    `{∀ y, Decision (P y)} (l : list A) :
  filter P (f <$> l) = f <$> filter (λ x, P (f x)) l.
Proof.
  induction l as [|x l IH]; [done|].
  rewrite fmap_cons, !filter_cons. case_decide; by rewrite ?fmap_cons, IH.
Qed.

Lemma concat_perm_outer {A : Type} (ls ls' : list (list A)) :
  ls ≡ₚ ls' → concat ls ≡ₚ concat ls'.
Proof.
  induction 1 as [|x l l' _ IH|x y l|l1 l2 l3 _ IH1 _ IH2]; simpl.
  - done.
  - by rewrite IH.
  - rewrite !app_assoc. f_equiv. apply Permutation_app_comm.
  - by rewrite IH1.
Qed.

(** the classes of the hashes [ks], without repetition, hold exactly the
    records whose hash is in [ks] *)
Lemma classes_concat l (ks : list string) :
  NoDup ks →
  concat (class_of l <$> ks) ≡ₚ filter (λ r, sha256 r ∈ ks) l.
Proof.
  induction ks as [|k ks IH]; intros Hnd.
  { simpl. symmetry. apply Permutation_nil_r, filter_none.
    intros r _. apply not_elem_of_nil. }
  apply NoDup_cons in Hnd as [Hk Hnd]. rewrite fmap_cons. simpl. rewrite IH by done.
  unfold class_of.
  rewrite <- (filter_split_perm (λ r, sha256 r = k) (λ r, sha256 r ∈ ks)).
  - erewrite list_filter_iff; [done|]. intros r. rewrite elem_of_cons.
    split; (intros [?|?]; [by left|by right]).
  - intros r <- Hin. done.
Qed.

Lemma kept_hashes_NoDup records : NoDup (kept_hashes records).
Proof. apply NoDup_filter, by_sha_keys_NoDup. Qed.

Lemma kept_hashes_elem records k :
  k ∈ kept_hashes records ↔ (2 ≤ length (class_of records k))%nat.
Proof.
  unfold kept_hashes. rewrite list_elem_of_filter, by_sha_keys. split; [lia|].
  intros Hlen. split; [lia|].
  destruct (class_of records k) as [|r ?] eqn:Hc; [simpl in Hlen; lia|].
  assert (r ∈ class_of records k) as Hr by (rewrite Hc; left).
  apply list_elem_of_filter in Hr as [? ?]. eauto.
Qed.

Lemma sha_groups_unsorted records :
  map sort_by_score_desc
      (filter (λ v, (1 < length v)%nat) (map snd (by_sha records)))
  = (λ k, sort_by_score_desc (class_of records k)) <$> kept_hashes records.
Proof.
  rewrite !map_fmap, by_sha_classes, filter_fmap_list, <- list_fmap_compose. done.
Qed.

Lemma sort_by_score_desc_perm (v : list ImageRecord) : sort_by_score_desc v ≡ₚ v.
Proof. apply py_sorted_perm. Qed.

Lemma sha_groups_perm records :
  group_duplicates_by_sha256 records
  ≡ₚ (λ k, sort_by_score_desc (class_of records k)) <$> kept_hashes records.
Proof.
  unfold group_duplicates_by_sha256. rewrite py_sorted_perm.
  by rewrite sha_groups_unsorted.
Qed.

Lemma sha_group_elem records (g : list ImageRecord) :
  g ∈ group_duplicates_by_sha256 records →
  ∃ k, (2 ≤ length (class_of records k))%nat
       ∧ g = sort_by_score_desc (class_of records k).
Proof.
  rewrite sha_groups_perm. intros (k & -> & Hk)%list_elem_of_fmap.
  exists k. split; [by apply kept_hashes_elem|done].
Qed.

Lemma head_sha_class records k :
  class_of records k ≠ [] → head_sha (sort_by_score_desc (class_of records k)) = k.
Proof.
  intros Hne.
  destruct (sort_by_score_desc (class_of records k)) as [|r g] eqn:Hg.
  - exfalso. apply Hne. apply Permutation_nil. by rewrite <- Hg, sort_by_score_desc_perm.
  - simpl. assert (r ∈ class_of records k) as Hr.
    { rewrite <- sort_by_score_desc_perm, Hg. left. }
    by apply list_elem_of_filter in Hr as [? ?].
Qed.
End ShaGroups.

Lemma sha_key_leb_total (a b : Z * string) :
  sha_key_leb a b = true ∨ sha_key_leb b a = true.
Proof. apply pair_leb_total, String.leb_total. Qed.

Lemma sha_key_leb_trans (a b c : Z * string) :
  sha_key_leb a b = true → sha_key_leb b c = true → sha_key_leb a c = true.
Proof. apply pair_leb_trans, string_leb_trans. Qed.

Lemma sha_group_members records (g : list ImageRecord) k :
  (2 ≤ length (class_of records k))%nat →
  g = sort_by_score_desc (class_of records k) →
  head_sha g = k ∧ length g = length (class_of records k)
  ∧ ∀ r, r ∈ g → sha256 r = k.
Proof.
  intros Hlen ->. split; [|split].
  - apply head_sha_class. intros Hnil. rewrite Hnil in Hlen. simpl in Hlen. lia.
  - by rewrite sort_by_score_desc_perm.
  - intros r. rewrite sort_by_score_desc_perm. by intros [? ?]%list_elem_of_filter.
Qed.

(** C3.  The groups returned for the content hash: every group has at
    least two records; a group is, up to the order of its members, the whole
    class of the records that carry one hash, so two records are in one group
    exactly when their hashes are equal; together the groups hold exactly the
    records whose hash is shared by at least two records; and the groups come
    by descending size, then ascending hash. *)
Theorem group_by_content_hash_partition (records : list ImageRecord) :
  Forall (λ g, (2 ≤ length g)%nat) (group_duplicates_by_sha256 records)
  ∧ (∀ g r, g ∈ group_duplicates_by_sha256 records → r ∈ g →
       g ≡ₚ class_of records (sha256 r))
  ∧ concat (group_duplicates_by_sha256 records) ≡ₚ filter (shared records) records
  ∧ StronglySorted group_before (group_duplicates_by_sha256 records).
Proof.
  split; [|split; [|split]].
  - apply Forall_forall. intros g (k & Hlen & Hg)%sha_group_elem.
    destruct (sha_group_members records g k Hlen Hg) as (_ & -> & _). done.
  - intros g r (k & Hlen & Hg)%sha_group_elem Hr.
    destruct (sha_group_members records g k Hlen Hg) as (_ & _ & Hall).
    rewrite (Hall r Hr). subst g. apply sort_by_score_desc_perm.
  - rewrite (concat_perm_outer _ _ (sha_groups_perm records)).
    rewrite (list_fmap_compose (class_of records) sort_by_score_desc).
    rewrite (concat_fmap_perm sort_by_score_desc) by apply sort_by_score_desc_perm.
    rewrite classes_concat by apply kept_hashes_NoDup.
    erewrite list_filter_iff; [done|]. intros r. apply kept_hashes_elem.
  - assert (Hnd : NoDup (head_sha <$> group_duplicates_by_sha256 records)).
    { rewrite sha_groups_perm, <- list_fmap_compose.
      erewrite (list_fmap_ext _ id).
      - rewrite list_fmap_id. apply kept_hashes_NoDup.
      - intros i k Hk. simpl. apply head_sha_class.
        apply list_elem_of_lookup_2, kept_hashes_elem in Hk.
        intros Hnil. rewrite Hnil in Hk. simpl in Hk. lia. }
    pose proof (py_sorted_sorted sha_key_leb sha_group_key sha_key_leb_total
                  sha_key_leb_trans
                  (map sort_by_score_desc
                     (filter (λ v, (1 < length v)%nat) (map snd (by_sha records)))))
      as Hs.
    fold (group_duplicates_by_sha256 records) in Hs.
    apply (StronglySorted_NoDup_fmap _ head_sha) in Hs; [|done].
    eapply StronglySorted_impl_elem; [|exact Hs].
    intros a b (ka & Hla & Ha)%sha_group_elem (kb & Hlb & Hb)%sha_group_elem [Hab Hne].
    destruct (sha_group_members records a ka Hla Ha) as (Hha & Hlena & Halla).
    destruct (sha_group_members records b kb Hlb Hb) as (Hhb & Hlenb & Hallb).
    apply pair_leb_spec in Hab. unfold sha_group_key in Hab. simpl in Hab.
    unfold group_before. destruct Hab as [Hlt|[Heq Hle]]; [left; lia|right].
    split; [lia|]. intros r1 r2 Hr1 Hr2.
    rewrite (Halla r1 Hr1), (Hallb r2 Hr2).
    rewrite Hha, Hhb in Hle, Hne.
    apply string_leb_spec in Hle as [Hlt|?]; [|done].
    unfold String.ltb. by rewrite Hlt.
Qed.

(** ** The order inside a group *)





Section EmbeddingFacts.
Variable sim_matrix_ge : list ImageRecord → result (nat → nat → bool).

Lemma embedding_inner_sublist (ge : nat → nat → bool) (i : nat)
    (later : list (nat * ImageRecord)) : ∀ cluster visited,
  ∃ c', (embedding_inner ge i later (cluster, visited)).1 = cluster ++ c'
        ∧ c' `sublist_of` later.*2.
Proof.
  unfold embedding_inner.
  induction later as [|[j rj] later IH]; intros cluster visited; simpl.
  { exists []. by rewrite app_nil_r. }
  destruct (decide (j ∈ visited)); [|destruct (ge i j)].
  - destruct (IH cluster visited) as (c' & -> & Hsub).
    exists c'. split; [done|]. by apply sublist_cons.
  - destruct (IH (cluster ++ [rj]) ({[j]} ∪ visited)) as (c' & -> & Hsub).
    exists (rj :: c'). split; [by rewrite <- app_assoc|]. by apply sublist_skip.
  - destruct (IH cluster visited) as (c' & -> & Hsub).
    exists c'. split; [done|]. by apply sublist_cons.
Qed.


End EmbeddingFacts.

Lemma score_desc_then_desc (T : relation ImageRecord) (g : list ImageRecord) :
  StronglySorted (score_desc_then T) g → StronglySorted score_desc g.
Proof. apply StronglySorted_impl_elem. by intros a b _ _ [? _]. Qed.


(** *** Two records of one perceptual hash and one score *)



(** ** Grouping by perceptual hash *)

Section PhashFacts.
Implicit Types (l remaining : list ImageRecord) (seed r : ImageRecord).

Lemma pop_nil {A : Type} : pop (@nil A) = None.
Proof. done. Qed.

Lemma pop_snoc {A : Type} (l : list A) (x : A) : pop (l ++ [x]) = Some (x, l).
Proof. unfold pop. rewrite reverse_snoc. by rewrite reverse_involutive. Qed.

Lemma pop_Some {A : Type} (l rest : list A) (x : A) :
  pop l = Some (x, rest) → l = rest ++ [x].
Proof.
  destruct l as [|y l] using rev_ind; [done|].
  rewrite pop_snoc. by intros [= <- <-].
Qed.

Lemma pop_None {A : Type} (l : list A) : pop l = None → l = [].
Proof. destruct l as [|y l] using rev_ind; [done|]. by rewrite pop_snoc. Qed.

Lemma hamming_well_formed seed r :
  well_formed seed → well_formed r →
  ∃ d, hamming_distance_hex_phash (phash seed) (phash r) = Ok d.
Proof.
  intros [x Hx] [y Hy]. unfold hamming_distance_hex_phash.
  rewrite Hx, Hy. simpl. eauto.
Qed.

Lemma split_by_seed_spec seed threshold l :
  well_formed seed → Forall well_formed l →
  split_by_seed seed threshold l
  = Ok (filter (within threshold seed) l, filter (λ r, ¬ within threshold seed r) l).
Proof.
  intros Hseed. induction 1 as [|r l Hr Hl IH]; [done|].
  cbn [split_by_seed]. rewrite IH. rewrite !filter_cons.
  destruct (hamming_well_formed seed r Hseed Hr) as [d Hd]. rewrite Hd. simpl.
  destruct (Z.leb_spec d threshold) as [Hle|Hgt].
  - rewrite decide_True by (exists d; done).
    rewrite decide_False; [done|]. intros Hn. apply Hn. by exists d.
  - rewrite decide_False.
    + rewrite decide_True; [done|]. intros (d' & Hd' & ?).
      rewrite Hd in Hd'. injection Hd' as <-. lia.
    + intros (d' & Hd' & ?). rewrite Hd in Hd'. injection Hd' as <-. lia.
Qed.

Lemma phash_loop_clusters threshold : ∀ fuel remaining groups,
  Forall well_formed remaining →
  (length remaining ≤ fuel)%nat →
  phash_loop fuel threshold remaining groups
  = Some (Ok (groups ++ (sort_by_score_desc
                           <$> filter (λ c, (1 < length c)%nat)
                                 (seed_clusters (within threshold) fuel remaining)))).
Proof.
  induction fuel as [|fuel IH]; intros remaining groups Hwf Hlen.
  { destruct remaining; [|simpl in Hlen; lia]. simpl. by rewrite app_nil_r. }
  cbn [phash_loop seed_clusters].
  destruct (pop remaining) as [[seed rest]|] eqn:Hpop.
  2:{ by rewrite filter_nil, fmap_nil, app_nil_r. }
  apply pop_Some in Hpop as ->.
  apply Forall_app in Hwf as [Hrest Hseed]. apply Forall_cons_1 in Hseed as [Hseed _].
  rewrite split_by_seed_spec by done.
  rewrite length_app in Hlen. simpl in Hlen.
  rewrite IH.
  - rewrite filter_cons. case_decide; [|done].
    by rewrite <- app_assoc.
  - rewrite Forall_forall in Hrest |- *. intros r [_ Hr]%list_elem_of_filter. auto.
  - pose proof (length_filter (λ r, ¬ within threshold seed r) rest). lia.
Qed.

End PhashFacts.






(** *** Distance zero *)

Lemma count_char_app (c : ascii) (s1 s2 : string) :
  count_char c (s1 +:+ s2) = (count_char c s1 + count_char c s2)%nat.
Proof. induction s1 as [|c' s1 IH]; simpl; [done|]. rewrite IH. lia. Qed.

Lemma bin_pos_has_one (p : positive) : (1 ≤ count_char "1"%char (bin_pos p))%nat.
Proof.
  induction p as [p IH|p IH|]; simpl; [| |lia];
    rewrite count_char_app; lia.
Qed.

Lemma bin_count_zero (n : Z) : count_char "1"%char (bin n) = 0%nat ↔ n = 0.
Proof.
  destruct n as [|p|p]; unfold bin; rewrite ?count_char_app.
  - done.
  - pose proof (bin_pos_has_one p). split; [lia|done].
  - pose proof (bin_pos_has_one p). split; [lia|done].
Qed.

Lemma within_zero (seed r : ImageRecord) :
  well_formed seed → well_formed r →
  within 0 seed r ↔ int16 (phash seed) = int16 (phash r).
Proof.
  intros [x Hx] [y Hy]. unfold within, hamming_distance_hex_phash.
  rewrite Hx, Hy. simpl. split.
  - intros (d & [= <-] & Hd). f_equal. apply Z.lxor_eq, bin_count_zero. lia.
  - intros [= ->]. eexists. split; [done|].
    rewrite Z.lxor_nilpotent. simpl. lia.
Qed.

(** *** The same partition *)

Section PartitionFacts.
Implicit Types (l : list ImageRecord) (gs : list (list ImageRecord)).

Lemma Forall2_perm_r {A B : Type} (R : A → B → Prop) (xs : list A) (ys ys' : list B) :
  Forall2 R xs ys → ys ≡ₚ ys' → ∃ xs', xs ≡ₚ xs' ∧ Forall2 R xs' ys'.
Proof.
  intros HF Hp. revert xs HF.
  induction Hp as [|y ys ys' _ IH|y1 y2 ys|ys1 ys2 ys3 _ IH1 _ IH2]; intros xs HF.
  - exists xs. done.
  - apply Forall2_cons_inv_r in HF as (x & xs0 & Hxy & HF & ->).
    destruct (IH xs0 HF) as (xs' & Hp' & HF').
    exists (x :: xs'). split; [by constructor|by constructor].
  - apply Forall2_cons_inv_r in HF as (x1 & xs0 & H1 & HF & ->).
    apply Forall2_cons_inv_r in HF as (x2 & xs1 & H2 & HF & ->).
    exists (x2 :: x1 :: xs1). split; [apply Permutation_swap|by repeat constructor].
  - destruct (IH1 xs HF) as (xs' & Hp' & HF').
    destruct (IH2 xs' HF') as (xs'' & Hp'' & HF'').
    exists xs''. split; [by etrans|done].
Qed.

Lemma Forall2_impl_elem_r {A B : Type} (R R' : A → B → Prop) (xs : list A)
    (ys : list B) :
  Forall2 R xs ys → (∀ x y, y ∈ ys → R x y → R' x y) → Forall2 R' xs ys.
Proof.
  induction 1 as [|x y xs ys Hxy HF IH]; intros Himp; [constructor|].
  constructor; [apply Himp; [left|done]|].
  apply IH. intros x' y' Hy'. apply Himp. by right.
Qed.

Lemma seed_clusters_ext (near near' : relation ImageRecord)
    `{∀ a b, Decision (near a b)} `{∀ a b, Decision (near' a b)} : ∀ fuel l,
  (∀ a b, a ∈ l → b ∈ l → near a b ↔ near' a b) →
  seed_clusters near fuel l = seed_clusters near' fuel l.
Proof.
  induction fuel as [|fuel IH]; intros l Hext; [done|].
  cbn [seed_clusters]. destruct (pop l) as [[seed rest]|] eqn:Hpop; [|done].
  apply pop_Some in Hpop as ->.
  assert (Hf : ∀ (P P' : ImageRecord → Prop) `{∀ x, Decision (P x)}
                 `{∀ x, Decision (P' x)} (k : list ImageRecord),
               (∀ x, x ∈ k → P x ↔ P' x) → filter P k = filter P' k).
  { intros P P' ? ? k. induction k as [|x k IHk]; intros HP; [done|].
    rewrite !filter_cons.
    assert (P x ↔ P' x) as Hx by (apply HP; left).
    assert (filter P k = filter P' k) as -> by (apply IHk; intros; apply HP; by right).
    destruct (decide (P x)), (decide (P' x)); tauto || done. }
  assert (Hseed : seed ∈ rest ++ [seed]).
  { apply elem_of_app. right. left. }
  f_equal.
  - f_equal. apply Hf. intros x Hx. apply Hext; [done|]. apply elem_of_app. by left.
  - rewrite (Hf (λ r, ¬ near seed r) (λ r, ¬ near' seed r) _ _ rest).
    + apply IH. intros a b [_ Ha]%list_elem_of_filter [_ Hb]%list_elem_of_filter.
      apply Hext; apply elem_of_app; by left.
    + intros x Hx. rewrite (Hext seed x); [done|done|]. apply elem_of_app. by left.
Qed.
End PartitionFacts.

Lemma class_of_keep (rest : list ImageRecord) (seed : ImageRecord) (k : string) :
  k ≠ sha256 seed →
  class_of (filter (λ r, ¬ same_sha seed r) rest) k = class_of (rest ++ [seed]) k.
Proof.
  intros Hk. rewrite class_of_snoc, decide_False, app_nil_r by done.
  unfold class_of. rewrite list_filter_filter.
  apply list_filter_iff. intros r. unfold same_sha. split; [tauto|].
  intros <-. done.
Qed.

(** with hash equality as nearness, the clusters of the loop are the
    classes of the content hash *)
Lemma seed_clusters_classes : ∀ fuel (l : list ImageRecord),
  (length l ≤ fuel)%nat →
  ∃ ks : list string,
    NoDup ks
    ∧ (∀ k, k ∈ ks ↔ ∃ r, r ∈ l ∧ sha256 r = k)
    ∧ Forall2 (λ c k, c ≡ₚ class_of l k) (seed_clusters same_sha fuel l) ks.
Proof.
  induction fuel as [|fuel IH]; intros l Hlen.
  { destruct l; [|simpl in Hlen; lia]. exists []. split; [constructor|].
    split; [|constructor]. intros k. split; [by intros ?%elem_of_nil|].
    by intros (r & ?%elem_of_nil & _). }
  cbn [seed_clusters]. destruct (pop l) as [[seed rest]|] eqn:Hpop.
  2:{ apply pop_None in Hpop as ->. exists []. split; [constructor|].
      split; [|constructor]. intros k. split; [by intros ?%elem_of_nil|].
      by intros (r & ?%elem_of_nil & _). }
  apply pop_Some in Hpop as ->. rewrite length_app in Hlen. simpl in Hlen.
  set (keep := filter (λ r, ¬ same_sha seed r) rest).
  destruct (IH keep) as (ks & Hnd & Hks & HF).
  { pose proof (length_filter (λ r, ¬ same_sha seed r) rest). unfold keep. lia. }
  assert (Hfresh : sha256 seed ∉ ks).
  { rewrite Hks. intros (r & [Hr _]%list_elem_of_filter & Heq). by apply Hr. }
  exists (sha256 seed :: ks). split; [by constructor|]. split.
  - intros k. rewrite elem_of_cons, Hks. split.
    + intros [->|(r & [_ Hr]%list_elem_of_filter & <-)].
      * exists seed. split; [|done]. apply elem_of_app. right. left.
      * exists r. split; [|done]. apply elem_of_app. by left.
    + intros (r & Hr & <-). apply elem_of_app in Hr as [Hr|Hr].
      * destruct (decide (sha256 r = sha256 seed)) as [?|Hne]; [by left|right].
        exists r. split; [|done]. apply list_elem_of_filter. by split.
      * apply list_elem_of_singleton in Hr as ->. by left.
  - constructor.
    + rewrite class_of_snoc, decide_True by done.
      rewrite <- Permutation_cons_append. constructor.
      unfold class_of. erewrite list_filter_iff; [done|]. done.
    + eapply Forall2_impl_elem_r; [exact HF|].
      intros c k Hk Hc. simpl in *. rewrite Hc. unfold keep.
      rewrite class_of_keep; [done|].
      intros ->. done.
Qed.

(** C8.  When the perceptual hash values (the integers the distance is
    taken on) are equal exactly for the records of equal content hash, the
    perceptual grouping at threshold 0 returns, and its groups are the
    groups of the content-hash grouping: the same sets of records. *)
Theorem perceptual_threshold_zero_is_content_partition (records : list ImageRecord) :
  Forall well_formed records →
  (∀ r1 r2, r1 ∈ records → r2 ∈ records →
     sha256 r1 = sha256 r2 ↔ int16 (phash r1) = int16 (phash r2)) →
  ∃ out, group_duplicates_by_phash records 0 = Some (Ok out)
    ∧ same_partition out (group_duplicates_by_sha256 records).
Proof.
  intros Hwf Hinj.
  eexists. split.
  { unfold group_duplicates_by_phash. rewrite phash_loop_clusters by done. done. }
  rewrite Forall_forall in Hwf.
  rewrite (seed_clusters_ext (within 0) same_sha (length records) records).
  2:{ intros a b Ha Hb. rewrite within_zero by auto. unfold same_sha.
      rewrite <- Hinj by done. done. }
  destruct (seed_clusters_classes (length records) records) as (ks & Hnd & Hks & HF);
    [done|].
  assert (Hperm : ks ≡ₚ (by_sha records).*1).
  { apply NoDup_Permutation; [done|apply by_sha_keys_NoDup|].
    intros k. by rewrite Hks, by_sha_keys. }
  set (raw := seed_clusters same_sha (length records) records) in *.
  set (P := λ c : list ImageRecord, (1 < length c)%nat).
  assert (HX : Forall2 (≡ₚ) (sort_by_score_desc <$> filter P raw)
                 (sort_by_score_desc <$> filter P (class_of records <$> ks))).
  { apply Forall2_fmap.
    apply (Forall2_impl (≡ₚ)); [|by intros c c' Hc; rewrite !sort_by_score_desc_perm].
    apply Forall2_filter.
    - intros c c' Hc. unfold P. by rewrite Hc.
    - apply Forall2_fmap_r. exact HF. }
  assert (HY : sort_by_score_desc <$> filter P (class_of records <$> ks)
               ≡ₚ group_duplicates_by_sha256 records).
  { rewrite sha_groups_perm, filter_fmap_list, <- list_fmap_compose.
    unfold kept_hashes, P. by rewrite Hperm. }
  destruct (Forall2_perm_r _ _ _ _ HX HY) as (X' & HXX' & HF').
  exists X'. split; [|done]. rewrite <- HXX'. simpl. apply py_sorted_perm.
Qed.

(** *** Concrete groupings *)

Lemma tie_a_well_formed : well_formed tie_a.
Proof. eexists. vm_compute. reflexivity. Qed.
Lemma tie_b_well_formed : well_formed tie_b.
Proof. eexists. vm_compute. reflexivity. Qed.
Lemma far_c_well_formed : well_formed far_c.
Proof. eexists. vm_compute. reflexivity. Qed.
Lemma twin_a_well_formed : well_formed twin_a.
Proof. eexists. vm_compute. reflexivity. Qed.
Lemma twin_b_well_formed : well_formed twin_b.
Proof. eexists. vm_compute. reflexivity. Qed.


(** three records of one content hash: one group of three, best first *)
Example three_identical_records :
  map (map path)
    (group_duplicates_by_sha256
       [twin_b; twin_a;
        mkImageRecord "z.jpg" "11" "ff00ff00ff00ff00" 1024 768 900000 0
          (Qc_of_Z 12) None None None])
  = [["a.jpg"; "z.jpg"; "b.jpg"]].
Proof. vm_compute. reflexivity. Qed.

Lemma perceptual_threshold_zero_is_content_partition_witness :
  ∃ out, group_duplicates_by_phash [twin_a; far_c; twin_b] 0 = Some (Ok out)
    ∧ same_partition out (group_duplicates_by_sha256 [twin_a; far_c; twin_b]).
Proof.
  apply (perceptual_threshold_zero_is_content_partition [twin_a; far_c; twin_b]).
  - repeat constructor.
    + apply twin_a_well_formed.
    + apply far_c_well_formed.
    + apply twin_b_well_formed.
  - intros r1 r2 H1 H2.
    rewrite !elem_of_cons in H1, H2.
    destruct H1 as [->|[->|[->|H1]]]; [| | |by apply elem_of_nil in H1];
    (destruct H2 as [->|[->|[->|H2]]]; [| | |by apply elem_of_nil in H2]);
    vm_compute; split; intros Heq; (reflexivity || discriminate Heq).
Defined.

(** ** Auto-select *)

Section TableFacts.
Implicit Types (cs ws : list candidate) (c : candidate) (f : candidate → Z).

Lemma dict_set_fresh {V : Type} (k : string) (v : V) (d : list (string * V)) :
  k ∉ d.*1 → dict_set k v d = d ++ [(k, v)].
Proof.
  induction d as [|[k' v'] d IH]; intros Hk; simpl; [done|].
  rewrite fmap_cons, not_elem_of_cons in Hk. destruct Hk as [Hne Hk]. simpl in Hne.
  rewrite decide_False by done. by rewrite IH.
Qed.

Lemma table_init cs : ∀ d0,
  NoDup (d0.*1 ++ (c_path <$> cs)) →
  foldl (λ d c, dict_set (c_path c) 0 d) d0 cs = d0 ++ table cs (λ _, 0).
Proof.
  induction cs as [|c cs IH]; intros d0 Hnd; simpl.
  { by rewrite app_nil_r. }
  rewrite fmap_cons in Hnd.
  rewrite dict_set_fresh.
  - rewrite IH; [by rewrite <- app_assoc|].
    rewrite fmap_app. simpl. by rewrite <- app_assoc.
  - apply NoDup_app in Hnd as (_ & Hdisj & _). intros Hin.
    apply (Hdisj _ Hin). left.
Qed.

Lemma dict_incr_table cs f (k : string) :
  dict_incr k (table cs f)
  = table cs (λ c, if decide (c_path c = k) then f c + 1 else f c).
Proof.
  unfold dict_incr, table. rewrite map_fmap, <- list_fmap_compose.
  apply list_fmap_ext. intros i c _. simpl. by case_decide.
Qed.

Lemma award_table ws : ∀ cs f,
  award ws (table cs f)
  = table cs (λ c, f c + Z.of_nat (length (filter (λ w, c_path w = c_path c) ws))).
Proof.
  unfold award. induction ws as [|w ws IH]; intros cs f; simpl.
  { unfold table. apply list_fmap_ext. intros i c _. simpl. f_equal. lia. }
  rewrite dict_incr_table, IH. unfold table.
  apply list_fmap_ext. intros i c _. simpl. f_equal.
  rewrite filter_cons. destruct (decide (c_path w = c_path c)) as [Heq|Hne].
  - rewrite decide_True by done. simpl. lia.
  - rewrite decide_False by done. lia.
Qed.

Lemma table_ext cs f g :
  (∀ c, c ∈ cs → f c = g c) → table cs f = table cs g.
Proof.
  intros Hfg. unfold table. apply list_fmap_ext. intros i c Hc. simpl.
  rewrite Hfg; [done|]. by eapply list_elem_of_lookup_2.
Qed.

(** among candidates of distinct paths, a winner is counted once *)
Lemma winners_count cs (P : candidate → Prop) `{∀ c, Decision (P c)} c :
  NoDup (c_path <$> cs) → c ∈ cs →
  Z.of_nat (length (filter (λ w, c_path w = c_path c) (filter P cs)))
  = if decide (P c) then 1 else 0.
Proof.
  intros Hnd Hc. induction cs as [|c0 cs IH]; [by apply elem_of_nil in Hc|].
  rewrite fmap_cons in Hnd. apply NoDup_cons in Hnd as [Hc0 Hnd].
  assert (Hnone : ∀ c1, c1 ∈ cs → c_path c1 = c_path c0 → False).
  { intros c1 Hc1 Heq. apply Hc0. rewrite <- Heq. by apply list_elem_of_fmap_2. }
  apply elem_of_cons in Hc as [->|Hc].
  - assert (filter (λ w, c_path w = c_path c0) (filter P cs) = []) as Hnil.
    { apply filter_none. intros c1 [_ Hc1]%list_elem_of_filter Heq. eauto. }
    rewrite filter_cons. destruct (decide (P c0)).
    + rewrite filter_cons_True by done. simpl. rewrite Hnil. done.
    + by rewrite Hnil.
  - rewrite filter_cons. destruct (decide (P c0)).
    + rewrite filter_cons_False; [by apply IH|]. intros Heq. eapply Hnone; eauto.
    + by apply IH.
Qed.

Lemma score_table_points (crit : criteria) cs :
  NoDup (c_path <$> cs) →
  score_table crit cs = table cs (points crit cs).
Proof.
  intros Hnd. unfold score_table.
  rewrite (table_init cs []) by done. rewrite app_nil_l.
  set (t0 := table cs (λ _, 0)).
  assert (Haward : ∀ (win : candidate → bool) f,
            award (filter (λ c, win c) cs) (table cs f)
            = table cs (λ c, f c + (if win c then 1 else 0))).
  { intros win f. rewrite award_table. apply table_ext. intros c Hc. f_equal.
    rewrite (winners_count cs (λ c, win c) c Hnd Hc).
    destruct (win c); by simpl. }
  unfold t0, points.
  destruct (chk_older crit), (chk_larger crit), (chk_deeper crit);
    rewrite ?Haward; apply table_ext; intros c _; simpl; lia.
Qed.
End TableFacts.

Section ExtremumFacts.

Lemma foldl_max_spec (l : list Z) : ∀ x,
  (foldl Z.max x l = x ∨ foldl Z.max x l ∈ l)
  ∧ x ≤ foldl Z.max x l
  ∧ ∀ y, y ∈ l → y ≤ foldl Z.max x l.
Proof.
  induction l as [|z l IH]; intros x; simpl.
  { split; [by left|]. split; [lia|]. by intros y ?%elem_of_nil. }
  destruct (IH (Z.max x z)) as (Hin & Hle & Hall).
  split; [|split].
  - destruct Hin as [Heq|Hin]; [|right; by right].
    rewrite Heq. destruct (Z.max_spec x z) as [[_ ->]|[_ ->]]; [right; left|by left].
  - lia.
  - intros y [->|Hy]%elem_of_cons; [lia|auto].
Qed.

Lemma max_Z_is_max (l : list Z) : l ≠ [] → is_max_Z l (max_Z l).
Proof.
  destruct l as [|x l]; [done|]. intros _. simpl.
  destruct (foldl_max_spec l x) as (Hin & Hle & Hall). split.
  - destruct Hin as [->|Hin]; [left|by right].
  - intros y [->|Hy]%elem_of_cons; auto.
Qed.

Lemma is_max_Z_unique (l : list Z) (m m' : Z) :
  is_max_Z l m → is_max_Z l m' → m = m'.
Proof. intros [Hm Hle] [Hm' Hle']. specialize (Hle _ Hm'). specialize (Hle' _ Hm). lia. Qed.

Lemma Qc_min_spec (a b : Qc) :
  (Qc_min a b = a ∧ (a ≤ b)%Qc) ∨ (Qc_min a b = b ∧ (b ≤ a)%Qc).
Proof.
  unfold Qc_min. destruct (Qc_leb a b) eqn:Hab.
  - left. by apply Qc_leb_le in Hab.
  - right. split; [done|]. destruct (Qc_leb_total a b) as [?|Hba]; [congruence|].
    by apply Qc_leb_le in Hba.
Qed.

Lemma foldl_min_spec (cs : list candidate) : ∀ x,
  let m := foldl (λ m c', Qc_min m (c_mtime c')) x cs in
  (m = x ∨ m ∈ c_mtime <$> cs)
  ∧ (m ≤ x)%Qc
  ∧ ∀ y, y ∈ c_mtime <$> cs → (m ≤ y)%Qc.
Proof.
  induction cs as [|c cs IH]; intros x; simpl.
  { split; [by left|]. split; [apply Qcle_refl|]. by intros y ?%elem_of_nil. }
  destruct (IH (Qc_min x (c_mtime c))) as (Hin & Hle & Hall).
  destruct (Qc_min_spec x (c_mtime c)) as [[Hm Hxc]|[Hm Hcx]]; rewrite Hm in *.
  - split; [|split].
    + destruct Hin as [?|?]; [by left|right; by right].
    + done.
    + intros y [->|Hy]%elem_of_cons; [by etrans|auto].
  - split; [|split].
    + destruct Hin as [->|?]; [right; left|right; by right].
    + by etrans.
    + intros y [->|Hy]%elem_of_cons; auto.
Qed.

Lemma min_mtime_is_min (cs : list candidate) :
  cs ≠ [] → is_min_Qc (c_mtime <$> cs) (min_mtime cs).
Proof.
  destruct cs as [|c cs]; [done|]. intros _. unfold min_mtime.
  destruct (foldl_min_spec cs (c_mtime c)) as (Hin & Hle & Hall).
  rewrite fmap_cons. split.
  - destruct Hin as [->|Hin]; [left|by right].
  - intros y [->|Hy]%elem_of_cons; auto.
Qed.

Lemma is_min_Qc_unique (l : list Qc) (m m' : Qc) :
  is_min_Qc l m → is_min_Qc l m' → m = m'.
Proof.
  intros [Hm Hle] [Hm' Hle']. apply Qcle_antisym; auto.
Qed.

Lemma Qc_abs_nonneg (a b : Qc) : (b ≤ a)%Qc → Qc_abs (a - b) = (a - b)%Qc.
Proof.
  intros Hle. unfold Qc_abs. destruct (Qc_leb (Q2Qc 0) (a - b)) eqn:Hab; [done|].
  exfalso. apply Qcle_minus_iff in Hle. apply Qc_leb_le in Hle.
  unfold Qcminus in Hab. congruence.
Qed.

(** PreferOlder: within one second of the least modification time *)
Lemma older_winner_spec (cs : list candidate) (c : candidate) :
  c ∈ cs →
  older_winner cs c = true
  ↔ ∃ m, is_min_Qc (c_mtime <$> cs) m ∧ (c_mtime c - m < Q2Qc 1)%Qc.
Proof.
  intros Hc. assert (cs ≠ []) as Hne by (intros ->; by apply elem_of_nil in Hc).
  pose proof (min_mtime_is_min cs Hne) as Hmin.
  unfold older_winner. rewrite bool_decide_eq_true.
  rewrite Qc_abs_nonneg by (apply Hmin; by apply list_elem_of_fmap_2).
  split; [eauto|]. intros (m & Hm & Hlt).
  by rewrite (is_min_Qc_unique _ _ _ Hmin Hm).
Qed.

(** PreferLarger: the greatest file size *)
Lemma larger_winner_spec (cs : list candidate) (c : candidate) :
  c ∈ cs → larger_winner cs c = true ↔ is_max_Z (c_size <$> cs) (c_size c).
Proof.
  intros Hc. assert (c_size <$> cs ≠ []) as Hne.
  { intros Hnil. apply (list_elem_of_fmap_2 c_size) in Hc. rewrite Hnil in Hc.
    by apply elem_of_nil in Hc. }
  pose proof (max_Z_is_max _ Hne) as Hmax.
  unfold larger_winner. rewrite bool_decide_eq_true, map_fmap. split.
  - by intros ->.
  - intros Hm. by apply (is_max_Z_unique (c_size <$> cs)).
Qed.

(** PreferDeeper: the greatest number of path segments *)
Lemma deeper_winner_spec (cs : list candidate) (c : candidate) :
  c ∈ cs → deeper_winner cs c = true ↔ is_max_Z (c_depth <$> cs) (c_depth c).
Proof.
  intros Hc. assert (c_depth <$> cs ≠ []) as Hne.
  { intros Hnil. apply (list_elem_of_fmap_2 c_depth) in Hc. rewrite Hnil in Hc.
    by apply elem_of_nil in Hc. }
  pose proof (max_Z_is_max _ Hne) as Hmax.
  unfold deeper_winner. rewrite bool_decide_eq_true, map_fmap. split.
  - by intros ->.
  - intros Hm. by apply (is_max_Z_unique (c_depth <$> cs)).
Qed.
End ExtremumFacts.

Section AutoSelectFacts.
Context `{Pathlib}.

Lemma gather_paths (w : world) (group : list string) :
  c_path <$> gather w group = filter (λ p, is_Some (files w !! p)) group.
Proof.
  unfold gather. induction group as [|p group IH]; [done|].
  rewrite filter_cons. cbn [omap list_omap].
  destruct (files w !! p) as [f|] eqn:Hp; cbn [mbind option_bind].
  - rewrite decide_True by done. rewrite fmap_cons. cbn [c_path]. by f_equal.
  - rewrite decide_False by (by intros [? ?]). done.
Qed.

Lemma gather_NoDup (w : world) (group : list string) :
  NoDup group → NoDup (c_path <$> gather w group).
Proof. intros Hnd. rewrite gather_paths. by apply NoDup_filter. Qed.


(** what the call decides, on candidates of distinct paths *)
Lemma run_auto_select_decision (crit : criteria) (group : list string) (w : world) :
  NoDup group →
  let cs := gather w group in
  let top := max_Z (points crit cs <$> cs) in
  let best := filter (λ c, points crit cs c = top) cs in
  run_auto_select crit group w
  = if decide (cs = []) then Keep_selection
    else if decide (active_criteria crit = 0) then Keep_selection
    else if decide (top = 0) then Select_none
    else match best with
         | [c] => Select_path (c_path c)
         | _ => Select_none
         end.
Proof.
  intros Hnd. cbv zeta. unfold run_auto_select.
  pose proof (gather_NoDup w group Hnd) as Hnd'.
  destruct group as [|p0 group'].
  { by rewrite decide_True. }
  generalize dependent (gather w (p0 :: group')). intros cs Hnd'.
  destruct (decide (cs = [])) as [->|Hne]; [done|].
  destruct cs as [|c0 cs']; [done|].
  set (cs := c0 :: cs') in *.
  rewrite score_table_points by done.
  case_decide; [done|].
  assert (map snd (table cs (points crit cs)) = points crit cs <$> cs) as ->.
  { unfold table. rewrite map_fmap, <- list_fmap_compose. done. }
  set (top := max_Z (points crit cs <$> cs)).
  case_decide; [done|].
  assert (map fst (filter (λ kv : string * Z, kv.2 = top) (table cs (points crit cs)))
          = c_path <$> filter (λ c, points crit cs c = top) cs) as ->.
  { unfold table. rewrite map_fmap, filter_fmap_list, <- list_fmap_compose. done. }
  destruct (filter (λ c, points crit cs c = top) cs) as [|c1 [|c2 rest]]; done.
Qed.
End AutoSelectFacts.



Section AutoSelectTheorem.
Context `{Pathlib}.


End AutoSelectTheorem.


Section AutoSelectClaim.
Context `{Pathlib}.

End AutoSelectClaim.

(** *** Auto-select on the concrete group *)


(** unticking every box keeps an earlier selection: the call returns
    before it touches the selection *)
Example no_criteria_keeps_selection :
  apply_action
    (run_auto_select (mkCriteria false false false) [path_A; path_B] world_AB)
    (mkSelection (Some path_B) true)
  = mkSelection (Some path_B) true.
Proof. vm_compute. reflexivity. Qed.

(** ** More on the Hamming distance *)

Lemma int16_digits_raises (s : string) : ∀ acc e,
  int16_digits acc s = Raise e → e = ValueError.
Proof.
  induction s as [|c s IH]; intros acc e; simpl; [done|].
  destruct (hex_digit c); [apply IH|]. by intros [= <-].
Qed.

Lemma int16_raises (s : string) (e : exn) : int16 s = Raise e → e = ValueError.
Proof.
  destruct s as [|c s]; [by intros [= <-]|]. apply int16_digits_raises.
Qed.

(** The distance does not depend on the order of its arguments, errors
    included. *)
Lemma hamming_symmetric (a b : string) :
  hamming_distance_hex_phash a b = hamming_distance_hex_phash b a.
Proof.
  unfold hamming_distance_hex_phash.
  destruct (int16 a) as [x|ea] eqn:Ha, (int16 b) as [y|eb] eqn:Hb; simpl.
  - by rewrite Z.lxor_comm.
  - done.
  - done.
  - apply int16_raises in Ha, Hb. by subst.
Qed.

Lemma count_bin_pos (p : positive) :
  count_char "1"%char (bin_pos p) = pos_popcount p.
Proof.
  induction p as [p IH|p IH|]; simpl; [| |done];
    rewrite count_char_app, IH; simpl; lia.
Qed.

Lemma pos_popcount_bits (p : positive) : ∀ k,
  Z.pos p < 2 ^ Z.of_nat k →
  pos_popcount p
  = length (filter (λ i, Z.testbit (Z.pos p) (Z.of_nat i) = true) (seq 0 k)).
Proof.
  induction p as [p IH|p IH|]; intros k Hk.
  - destruct k as [|k]; [simpl in Hk; lia|].
    rewrite Nat2Z.inj_succ, Z.pow_succ_r in Hk by lia.
    simpl pos_popcount. rewrite (IH k) by lia.
    cbn [seq]. rewrite filter_cons_True by done. simpl length. f_equal.
    rewrite <- fmap_S_seq, filter_fmap_list, length_fmap. f_equal.
    apply list_filter_iff. intros i.
    rewrite Nat2Z.inj_succ, Pos2Z.inj_xI, Z.testbit_odd_succ by lia. done.
  - destruct k as [|k]; [simpl in Hk; lia|].
    rewrite Nat2Z.inj_succ, Z.pow_succ_r in Hk by lia.
    simpl pos_popcount. rewrite (IH k) by lia.
    cbn [seq]. rewrite filter_cons_False by done.
    rewrite <- fmap_S_seq, filter_fmap_list, length_fmap. f_equal.
    apply list_filter_iff. intros i.
    rewrite Nat2Z.inj_succ, Pos2Z.inj_xO, Z.testbit_even_succ by lia. done.
  - destruct k as [|k]; [simpl in Hk; lia|].
    cbn [seq]. rewrite filter_cons_True by done. simpl. f_equal.
    symmetry. apply length_zero_iff_nil, filter_none. intros i Hi.
    apply elem_of_seq in Hi. destruct i; [lia|]. done.
Qed.

Lemma lxor_below (k : nat) (x y : Z) :
  0 ≤ x < 2 ^ Z.of_nat k → 0 ≤ y < 2 ^ Z.of_nat k →
  0 ≤ Z.lxor x y < 2 ^ Z.of_nat k.
Proof.
  intros Hx Hy. assert (0 ≤ Z.lxor x y) as Hn by (apply Z.lxor_nonneg; lia).
  split; [done|].
  destruct (decide (Z.lxor x y = 0)) as [->|Hne]; [lia|].
  apply Z.log2_lt_pow2; [lia|].
  pose proof (Z.log2_lxor x y ltac:(lia) ltac:(lia)) as Hlog.
  assert (∀ z, 0 ≤ z < 2 ^ Z.of_nat k → z ≠ 0 → Z.log2 z < Z.of_nat k) as Hz.
  { intros z Hzb Hz0. apply Z.log2_lt_pow2; lia. }
  destruct (decide (x = 0)) as [->|Hx0].
  { rewrite Z.lxor_0_l in *. by apply Hz. }
  destruct (decide (y = 0)) as [->|Hy0].
  { rewrite Z.lxor_0_r in *. by apply Hz. }
  specialize (Hz x Hx Hx0) as Hlx. specialize (Hz y Hy Hy0) as Hly. lia.
Qed.

Lemma hamming_bits (a b : string) (x y : Z) (k : nat) :
  int16 a = Ok x → int16 b = Ok y →
  0 ≤ x < 2 ^ Z.of_nat k → 0 ≤ y < 2 ^ Z.of_nat k →
  hamming_distance_hex_phash a b
  = Ok (Z.of_nat (length (differing_bits k x y))).
Proof.
  intros Ha Hb Hx Hy. unfold hamming_distance_hex_phash, differing_bits.
  rewrite Ha, Hb. simpl. do 2 f_equal.
  pose proof (lxor_below k x y Hx Hy) as Hn.
  assert (Hbits : ∀ i : nat,
            Z.testbit (Z.lxor x y) (Z.of_nat i) = true
            ↔ Z.testbit x (Z.of_nat i) ≠ Z.testbit y (Z.of_nat i)).
  { intros i. rewrite Z.lxor_spec.
    destruct (Z.testbit x (Z.of_nat i)), (Z.testbit y (Z.of_nat i)); simpl;
      split; (done || congruence). }
  destruct (Z.lxor x y) as [|p|p] eqn:Hxor; [| |lia].
  - simpl. symmetry. apply length_zero_iff_nil, filter_none.
    intros i _ Hi. apply Hbits in Hi. by rewrite Z.testbit_0_l in Hi.
  - unfold bin. rewrite count_char_app, count_bin_pos. simpl.
    rewrite (pos_popcount_bits p k) by lia. f_equal.
    apply list_filter_iff. intros i. apply Hbits.
Qed.

(** X1.  The distance between two hashes that parse is the number of bit
    positions at which their values differ. *)
Theorem hamming_counts_differing_bits (a b : string) (x y : Z) (k : nat) :
  int16 a = Ok x → int16 b = Ok y →
  0 ≤ x < 2 ^ Z.of_nat k → 0 ≤ y < 2 ^ Z.of_nat k →
  hamming_distance_hex_phash a b
  = Ok (Z.of_nat (length (differing_bits k x y))).
Proof. apply hamming_bits. Qed.

Lemma hamming_counts_differing_bits_witness :
  hamming_distance_hex_phash "ff" "0f"
  = Ok (Z.of_nat (length (differing_bits 8 255 15))).
Proof.
  apply (hamming_counts_differing_bits "ff" "0f" 255 15 8);
    (reflexivity || (split; [discriminate|reflexivity])).
Defined.

Lemma digit_index_bound (c : ascii) (digits : string) : ∀ i d,
  digit_index c digits i = Some d → i ≤ d < i + Z.of_nat (String.length digits).
Proof.
  induction digits as [|c' digits IH]; intros i d; simpl; [done|].
  case_decide.
  - intros [= <-]. lia.
  - intros Hd. apply IH in Hd. lia.
Qed.

Lemma hex_digit_bound (c : ascii) (d : Z) : hex_digit c = Some d → 0 ≤ d < 16.
Proof.
  unfold hex_digit.
  destruct (digit_index c "0123456789abcdef" 0) as [d'|] eqn:Hl.
  - intros [= <-]. apply digit_index_bound in Hl. simpl in Hl. lia.
  - intros Hu. apply digit_index_bound in Hu. simpl in Hu. lia.
Qed.

Lemma int16_digits_bound (s : string) : ∀ acc x,
  0 ≤ acc → int16_digits acc s = Ok x →
  0 ≤ x < (acc + 1) * 16 ^ Z.of_nat (String.length s).
Proof.
  induction s as [|c s IH]; intros acc x Hacc; simpl String.length.
  { simpl. intros [= <-]. lia. }
  cbn [int16_digits]. destruct (hex_digit c) as [d|] eqn:Hd; [|done].
  apply hex_digit_bound in Hd. intros Hx. apply IH in Hx; [|lia].
  rewrite Nat2Z.inj_succ, Z.pow_succ_r by lia.
  assert (0 < 16 ^ Z.of_nat (String.length s)) by (apply Z.pow_pos_nonneg; lia).
  nia.
Qed.

Lemma int16_bound (s : string) (x : Z) :
  int16 s = Ok x → 0 ≤ x < 2 ^ Z.of_nat (4 * String.length s).
Proof.
  intros Hx. assert (0 ≤ x < (0 + 1) * 16 ^ Z.of_nat (String.length s)) as Hb.
  { apply int16_digits_bound; [lia|]. by destruct s. }
  rewrite Nat2Z.inj_mul, Z.pow_mul_r by lia.
  change (2 ^ Z.of_nat 4) with 16. lia.
Qed.

(** X2.  A distance that is returned lies between 0 and four times the
    length of the longer hash string: at most 64 for the 16 digits of a
    perceptual hash. *)
Theorem hamming_bounded (a b : string) (d : Z) :
  hamming_distance_hex_phash a b = Ok d →
  0 ≤ d ≤ 4 * Z.of_nat (String.length a `max` String.length b).
Proof.
  intros Hd. unfold hamming_distance_hex_phash in Hd.
  destruct (int16 a) as [x|] eqn:Ha; [|done].
  destruct (int16 b) as [y|] eqn:Hb; [|done]. simpl in Hd.
  set (k := (4 * (String.length a `max` String.length b))%nat).
  pose proof (int16_bound a x Ha) as Hx. pose proof (int16_bound b y Hb) as Hy.
  assert (0 ≤ x < 2 ^ Z.of_nat k) as Hxk.
  { split; [lia|]. eapply Z.lt_le_trans; [apply Hx|].
    apply Z.pow_le_mono_r; unfold k; lia. }
  assert (0 ≤ y < 2 ^ Z.of_nat k) as Hyk.
  { split; [lia|]. eapply Z.lt_le_trans; [apply Hy|].
    apply Z.pow_le_mono_r; unfold k; lia. }
  pose proof (hamming_bits a b x y k Ha Hb Hxk Hyk) as Hbits.
  unfold hamming_distance_hex_phash in Hbits. rewrite Ha, Hb in Hbits.
  simpl in Hbits. rewrite Hbits in Hd. injection Hd as <-.
  pose proof (length_filter (λ i, Z.testbit x (Z.of_nat i) ≠ Z.testbit y (Z.of_nat i))
                (seq 0 k)) as Hlen.
  rewrite length_seq in Hlen. unfold differing_bits. unfold k in *. lia.
Qed.

Lemma hamming_bounded_witness :
  0 ≤ 4 ≤ 4 * Z.of_nat (String.length "ff" `max` String.length "0f").
Proof. apply (hamming_bounded "ff" "0f" 4). reflexivity. Defined.

(** X3.  The distance is symmetric, and a malformed hash raises the same
    error on either side. *)
Theorem hamming_distance_symmetric (a b : string) :
  hamming_distance_hex_phash a b = hamming_distance_hex_phash b a.
Proof. apply hamming_symmetric. Qed.

(** ** More on the perceptual grouping *)



Lemma split_by_seed_perm (seed : ImageRecord) (threshold : Z) :
  ∀ (rest near keep : list ImageRecord),
  split_by_seed seed threshold rest = Ok (near, keep) → near ++ keep ≡ₚ rest.
Proof.
  induction rest as [|r rest IH]; intros near keep.
  { by intros [= <- <-]. }
  cbn [split_by_seed].
  destruct (hamming_distance_hex_phash (phash seed) (phash r)) as [d|]; [|done].
  simpl. destruct (split_by_seed seed threshold rest) as [[near' keep']|]; [|done].
  simpl. specialize (IH near' keep' eq_refl).
  destruct (d <=? threshold); intros [= <- <-].
  - simpl. by rewrite IH.
  - rewrite <- Permutation_middle. by rewrite IH.
Qed.

Lemma phash_loop_returns (threshold : Z) : ∀ fuel remaining groups,
  (length remaining ≤ fuel)%nat →
  ∃ res, phash_loop fuel threshold remaining groups = Some res.
Proof.
  induction fuel as [|fuel IH]; intros remaining groups Hlen.
  { destruct remaining; [|simpl in Hlen; lia]. by eexists. }
  cbn [phash_loop]. destruct (pop remaining) as [[seed rest]|] eqn:Hpop; [|by eexists].
  apply pop_Some in Hpop as ->. rewrite length_app in Hlen. simpl in Hlen.
  destruct (split_by_seed seed threshold rest) as [[near keep]|e] eqn:Hs; [|by eexists].
  apply IH. apply split_by_seed_perm in Hs.
  apply Permutation_length in Hs. rewrite length_app in Hs. lia.
Qed.

Lemma phash_loop_submseteq (threshold : Z) : ∀ fuel remaining groups gs,
  phash_loop fuel threshold remaining groups = Some (Ok gs) →
  concat gs ⊆+ concat groups ++ remaining.
Proof.
  induction fuel as [|fuel IH]; intros remaining groups gs; cbn [phash_loop].
  - destruct (pop remaining) as [[seed rest]|]; [done|]. intros [= <-].
    by apply submseteq_inserts_r.
  - destruct (pop remaining) as [[seed rest]|] eqn:Hpop.
    2:{ intros [= <-]. by apply submseteq_inserts_r. }
    apply pop_Some in Hpop as ->.
    destruct (split_by_seed seed threshold rest) as [[near keep]|e] eqn:Hs; [|done].
    apply split_by_seed_perm in Hs. intros Hloop. apply IH in Hloop.
    etrans; [exact Hloop|]. case_decide.
    + rewrite concat_app.
      change (concat [sort_by_score_desc (seed :: near)])
        with (sort_by_score_desc (seed :: near) ++ []).
      rewrite app_nil_r, sort_by_score_desc_perm.
      rewrite <- Hs, <- !app_assoc. apply submseteq_app; [done|].
      apply Permutation_submseteq.
      rewrite app_assoc, <- Permutation_cons_append. done.
    + apply submseteq_app; [done|]. rewrite <- Hs.
      etrans; [|apply submseteq_inserts_r; done]. by apply submseteq_inserts_l.
Qed.

(** X4.  The [while remaining] loop ends on every input: the function
    returns groups or raises, it never runs on. *)
Theorem phash_grouping_terminates (records : list ImageRecord) (threshold : Z) :
  ∃ res, group_duplicates_by_phash records threshold = Some res.
Proof.
  unfold group_duplicates_by_phash.
  destruct (phash_loop_returns threshold (length records) records [] ltac:(done))
    as [res ->].
  simpl. eauto.
Qed.


Example phash_grouping_malformed_example :
  group_duplicates_by_phash
    [tie_a; mkImageRecord "x.jpg" "44" "not-hex" 1 1 1 0 (Qc_of_Z 1) None None None;
     tie_b] 6
  = Some (Raise ValueError).
Proof. vm_compute. reflexivity. Qed.

(** X6.  No record is put in two groups or repeated in one: the records of
    the returned groups, taken together, occur among the input records. *)
Theorem phash_groups_disjoint (records : list ImageRecord) (threshold : Z)
    (gs : list (list ImageRecord)) :
  group_duplicates_by_phash records threshold = Some (Ok gs) →
  concat gs ⊆+ records.
Proof.
  unfold group_duplicates_by_phash.
  destruct (phash_loop (length records) threshold records []) as [[gs0|e]|] eqn:Hloop;
    simpl; [|done..].
  intros [= <-]. apply phash_loop_submseteq in Hloop. simpl in Hloop.
  rewrite (concat_perm_outer _ gs0); [done|]. apply py_sorted_perm.
Qed.

Lemma phash_groups_disjoint_witness :
  concat [[tie_b; tie_a]] ⊆+ [tie_a; tie_b].
Proof.
  apply (phash_groups_disjoint [tie_a; tie_b] 6 [[tie_b; tie_a]]).
  vm_compute. reflexivity.
Defined.

Lemma seed_clusters_singletons (near : relation ImageRecord)
    `{∀ a b, Decision (near a b)} : ∀ fuel (l : list ImageRecord),
  (∀ a b, ¬ near a b) →
  filter (λ c, (1 < length c)%nat) (seed_clusters near fuel l) = [].
Proof.
  induction fuel as [|fuel IH]; intros l Hnear; [done|].
  cbn [seed_clusters]. destruct (pop l) as [[seed rest]|]; [|done].
  rewrite filter_cons_False.
  - by apply IH.
  - rewrite (filter_none (near seed)); [simpl; lia|]. intros r _. apply Hnear.
Qed.

(** X7.  A negative threshold groups nothing: a distance is never below
    zero. *)
Theorem phash_negative_threshold (records : list ImageRecord) (threshold : Z) :
  threshold < 0 →
  Forall well_formed records →
  group_duplicates_by_phash records threshold = Some (Ok []).
Proof.
  intros Hneg Hwf. unfold group_duplicates_by_phash.
  rewrite phash_loop_clusters by done.
  rewrite seed_clusters_singletons; [done|].
  intros a b (d & Hd & Hle). unfold hamming_distance_hex_phash in Hd.
  destruct (int16 (phash a)); [|done]. destruct (int16 (phash b)); [|done].
  simpl in Hd. injection Hd as <-. lia.
Qed.

Lemma phash_negative_threshold_witness :
  group_duplicates_by_phash [tie_a; tie_b] (-1) = Some (Ok []).
Proof.
  apply (phash_negative_threshold [tie_a; tie_b] (-1)).
  - reflexivity.
  - repeat constructor; [apply tie_a_well_formed|apply tie_b_well_formed].
Defined.

(** ** More on the content-hash grouping *)

Lemma NoDup_sha_classes (l : list ImageRecord) :
  NoDup (sha256 <$> l) ↔ ∀ k, (length (class_of l k) ≤ 1)%nat.
Proof.
  induction l as [|r l IH].
  { split; [intros _ k; simpl; lia|intros _; constructor]. }
  rewrite fmap_cons, NoDup_cons, IH. unfold class_of. split.
  - intros [Hr Hl] k. rewrite filter_cons. case_decide as Hk; [|apply Hl].
    rewrite (filter_none (λ r0, sha256 r0 = k)); [simpl; lia|].
    intros r' Hr' Heq. apply Hr. rewrite Hk, <- Heq. by apply list_elem_of_fmap_2.
  - intros Hall. split.
    + intros (r' & Heq & Hr')%list_elem_of_fmap.
      specialize (Hall (sha256 r)). rewrite filter_cons_True in Hall by done.
      assert (r' ∈ filter (λ r0, sha256 r0 = sha256 r) l) as Hin
        by (apply list_elem_of_filter; done).
      destruct (filter (λ r0, sha256 r0 = sha256 r) l); [by apply elem_of_nil in Hin|].
      simpl in Hall. lia.
    + intros k. specialize (Hall k). rewrite filter_cons in Hall.
      case_decide; [simpl in Hall; lia|done].
Qed.

(** X8.  The content-hash grouping reports nothing exactly when all
    content hashes are distinct. *)
Theorem no_content_groups_iff_distinct (records : list ImageRecord) :
  group_duplicates_by_sha256 records = [] ↔ NoDup (sha256 <$> records).
Proof.
  rewrite NoDup_sha_classes. split.
  - intros Hnil k.
    destruct (decide (2 ≤ length (class_of records k))%nat) as [Hk|]; [|lia].
    apply kept_hashes_elem in Hk.
    apply (list_elem_of_fmap_2 (λ k, sort_by_score_desc (class_of records k))) in Hk.
    rewrite <- sha_groups_perm, Hnil in Hk. by apply elem_of_nil in Hk.
  - intros Hall. apply Permutation_nil. rewrite sha_groups_perm.
    assert (kept_hashes records = []) as ->; [|done].
    destruct (kept_hashes records) as [|k ks] eqn:Hks; [done|].
    assert (k ∈ kept_hashes records) as Hk by (rewrite Hks; left).
    apply kept_hashes_elem in Hk. specialize (Hall k). lia.
Qed.

(** ** More on the embedding grouping *)

Section EmbeddingMore.
Variable sim_matrix_ge : list ImageRecord → result (nat → nat → bool).

Lemma embedding_outer_clusters (P : list ImageRecord → Prop) (ge : nat → nat → bool)
    (W : list ImageRecord) :
  (∀ c, c `sublist_of` W → (1 < length c)%nat → P (sort_by_score_desc c)) →
  ∀ ixs visited groups,
    ixs.*2 `sublist_of` W →
    Forall P groups →
    Forall P (embedding_outer ge ixs visited groups).
Proof.
  intros HP. induction ixs as [|[i ri] later IH]; intros visited groups Hsub Hg;
    simpl; [done|].
  assert (later.*2 `sublist_of` W) as Hlater.
  { etrans; [|exact Hsub]. rewrite fmap_cons. by apply sublist_cons. }
  case_decide; [by apply IH|].
  destruct (embedding_inner ge i later ([ri], {[i]} ∪ visited)) as [cluster visited']
    eqn:Hin.
  apply IH; [done|]. case_decide; [|done].
  apply Forall_app_2; [done|]. constructor; [|constructor].
  apply HP; [|done].
  destruct (embedding_inner_sublist ge i later [ri] ({[i]} ∪ visited))
    as (c' & Hc & Hc'). rewrite Hin in Hc. simpl in Hc. subst cluster.
  etrans; [|exact Hsub]. rewrite fmap_cons. simpl. by apply sublist_skip.
Qed.

(** X9.  Only records that carry an embedding are grouped, every group has
    at least two of them, and when no record carries an embedding the result
    is the empty list without any call to numpy. *)
Theorem embedding_groups_members (records : list ImageRecord) :
  (∀ gs, group_duplicates_by_embedding sim_matrix_ge records = Ok gs →
     Forall (λ g, (2 ≤ length g)%nat
                  ∧ ∀ r, r ∈ g → r ∈ records ∧ embedding r ≠ None) gs)
  ∧ ((∀ r, r ∈ records → embedding r = None) →
     group_duplicates_by_embedding sim_matrix_ge records = Ok []).
Proof.
  unfold group_duplicates_by_embedding.
  set (valid := filter (λ r, embedding r ≠ None) records).
  split.
  - intros gs. destruct valid as [|r0 valid'] eqn:Hv.
    { intros [= <-]. constructor. }
    rewrite <- Hv. destruct (sim_matrix_ge valid) as [ge|e]; simpl; [|done].
    intros [= <-]. rewrite py_sorted_perm.
    apply (embedding_outer_clusters _ ge valid); [| |constructor].
    + intros c Hc Hlen. split; [rewrite sort_by_score_desc_perm; lia|].
      intros r. rewrite sort_by_score_desc_perm. intros Hr.
      apply (elem_of_sublist _ _ _ Hr) in Hc.
      apply list_elem_of_filter in Hc as [? ?]. done.
    + rewrite snd_zip; [done|]. by rewrite length_seq.
  - intros Hnone. assert (valid = []) as ->; [|done].
    apply filter_none. intros r Hr Hemb. by apply Hemb, Hnone.
Qed.

Lemma filter_ext_elem {A : Type} (P Q : A → Prop) `{∀ x, Decision (P x)}
    `{∀ x, Decision (Q x)} (l : list A) :
  (∀ x, x ∈ l → P x ↔ Q x) → filter P l = filter Q l.
Proof.
  induction l as [|x l IH]; intros HPQ; [done|].
  rewrite !filter_cons.
  assert (P x ↔ Q x) as Hx by (apply HPQ; left).
  rewrite IH by (intros; apply HPQ; by right).
  destruct (decide (P x)), (decide (Q x)); tauto || done.
Qed.

Lemma filter_all {A : Type} (P : A → Prop) `{∀ x, Decision (P x)} (l : list A) :
  (∀ x, x ∈ l → P x) → filter P l = l.
Proof.
  induction l as [|x l IH]; intros HP; [done|].
  rewrite filter_cons, decide_True by (apply HP; left).
  f_equal. apply IH. intros; apply HP; by right.
Qed.

Lemma unvisited_fresh (visited : gset nat) (j : nat) (l : list (nat * ImageRecord)) :
  j ∉ l.*1 → unvisited ({[j]} ∪ visited) l = unvisited visited l.
Proof.
  intros Hj. unfold unvisited. apply filter_ext_elem. intros [j' r'] Hin. simpl.
  assert (j' ≠ j).
  { intros ->. apply Hj. by apply (list_elem_of_fmap_2 fst) in Hin. }
  set_solver.
Qed.

(** the inner loop moves records from the unvisited ones into the cluster *)
Lemma embedding_inner_moves (ge : nat → nat → bool) (i : nat)
    (later : list (nat * ImageRecord)) : ∀ cluster visited,
  NoDup later.*1 →
  (embedding_inner ge i later (cluster, visited)).1
    ++ (unvisited (embedding_inner ge i later (cluster, visited)).2 later).*2
  ≡ₚ cluster ++ (unvisited visited later).*2
  ∧ visited ⊆ (embedding_inner ge i later (cluster, visited)).2
  ∧ ∀ j, j ∈ (embedding_inner ge i later (cluster, visited)).2 →
         j ∈ visited ∨ j ∈ later.*1.
Proof.
  unfold embedding_inner.
  induction later as [|[j rj] later IH]; intros cluster visited Hnd.
  { cbn. split; [done|]. split; [done|]. auto. }
  rewrite fmap_cons in Hnd. apply NoDup_cons in Hnd as [Hj Hnd]. cbn [fst] in Hj.
  cbn [foldl]. unfold unvisited in *. rewrite !filter_cons. cbn [fst].
  destruct (decide (j ∈ visited)) as [Hv|Hv].
  - destruct (IH cluster visited Hnd) as (Hperm & Hsub & Hnew).
    rewrite decide_False by set_solver.
    rewrite (decide_False (P := j ∉ visited)) by set_solver.
    split; [done|]. split; [done|]. intros j' Hj'. rewrite fmap_cons, elem_of_cons.
    destruct (Hnew j' Hj'); auto.
  - rewrite (decide_True (P := j ∉ visited)) by done.
    destruct (ge i j).
    + destruct (IH (cluster ++ [rj]) ({[j]} ∪ visited) Hnd) as (Hperm & Hsub & Hnew).
      rewrite decide_False by set_solver.
      split; [|split].
      * rewrite Hperm. fold (unvisited ({[j]} ∪ visited) later).
        rewrite unvisited_fresh by done. unfold unvisited.
        rewrite fmap_cons. cbn [snd]. by rewrite <- app_assoc.
      * set_solver.
      * intros j' Hj'. rewrite fmap_cons, elem_of_cons. cbn [fst].
        destruct (Hnew j' Hj') as [Hin|Hin]; [|auto]. set_solver.
    + destruct (IH cluster visited Hnd) as (Hperm & Hsub & Hnew).
      rewrite decide_True.
      2:{ intros Hin. destruct (Hnew j Hin); done. }
      split; [|split].
      * rewrite !fmap_cons. cbn [snd]. rewrite <- !Permutation_middle. by rewrite Hperm.
      * done.
      * intros j' Hj'. rewrite fmap_cons, elem_of_cons.
        destruct (Hnew j' Hj'); auto.
Qed.

Lemma embedding_outer_submseteq (ge : nat → nat → bool) :
  ∀ (ixs : list (nat * ImageRecord)) visited groups,
  NoDup ixs.*1 →
  concat (embedding_outer ge ixs visited groups)
  ⊆+ concat groups ++ (unvisited visited ixs).*2.
Proof.
  induction ixs as [|[i ri] later IH]; intros visited groups Hnd; simpl.
  { by rewrite app_nil_r. }
  rewrite fmap_cons in Hnd. apply NoDup_cons in Hnd as [Hi Hnd]. simpl in Hi.
  unfold unvisited. rewrite filter_cons. simpl. fold (unvisited visited later).
  destruct (decide (i ∈ visited)) as [Hv|Hv].
  - rewrite decide_False by set_solver. by apply IH.
  - rewrite decide_True by done.
    pose proof (embedding_inner_moves ge i later [ri] ({[i]} ∪ visited) Hnd) as Hin.
    destruct (embedding_inner ge i later ([ri], {[i]} ∪ visited))
      as [cluster visited']. cbn [fst snd] in Hin. destruct Hin as (Hperm & _ & _).
    rewrite unvisited_fresh in Hperm by done.
    etrans; [apply IH; done|].
    rewrite fmap_cons. simpl. rewrite <- Hperm.
    case_decide.
    + rewrite concat_app.
      change (concat [sort_by_score_desc cluster])
        with (sort_by_score_desc cluster ++ []).
      by rewrite app_nil_r, sort_by_score_desc_perm, <- app_assoc.
    + apply submseteq_app; [done|]. by apply submseteq_inserts_l.
Qed.

(** X10.  No record is put in two embedding groups or repeated in one. *)
Theorem embedding_groups_disjoint (records : list ImageRecord)
    (gs : list (list ImageRecord)) :
  group_duplicates_by_embedding sim_matrix_ge records = Ok gs →
  concat gs ⊆+ records.
Proof.
  unfold group_duplicates_by_embedding.
  set (valid := filter (λ r, embedding r ≠ None) records).
  assert (valid ⊆+ records) as Hvalid by apply sublist_submseteq, sublist_filter.
  destruct valid as [|r0 valid'] eqn:Hv.
  { intros [= <-]. apply submseteq_nil_l. }
  rewrite <- Hv in *. destruct (sim_matrix_ge valid) as [ge|e]; simpl; [|done].
  intros [= <-]. rewrite (concat_perm_outer _ _ (py_sorted_perm _ _ _)).
  etrans; [apply embedding_outer_submseteq|].
  - rewrite fst_zip; [apply NoDup_seq|]. by rewrite length_seq.
  - cbn [concat app]. unfold unvisited. rewrite filter_all by set_solver.
    rewrite snd_zip; [done|]. by rewrite length_seq.
Qed.
End EmbeddingMore.

Lemma embedding_groups_members_witness :
  (∀ gs, group_duplicates_by_embedding first_two_similar [emb_a; tie_a; emb_b; emb_c]
         = Ok gs →
     Forall (λ g, (2 ≤ length g)%nat
                  ∧ ∀ r, r ∈ g → r ∈ [emb_a; tie_a; emb_b; emb_c]
                                 ∧ embedding r ≠ None) gs)
  ∧ ((∀ r, r ∈ [emb_a; tie_a; emb_b; emb_c] → embedding r = None) →
     group_duplicates_by_embedding first_two_similar [emb_a; tie_a; emb_b; emb_c]
     = Ok []).
Proof.
  apply (embedding_groups_members first_two_similar [emb_a; tie_a; emb_b; emb_c]).
Defined.

Lemma embedding_groups_disjoint_witness :
  group_duplicates_by_embedding first_two_similar [emb_a; tie_a; emb_b; emb_c]
  = Ok [[emb_b; emb_a]]
  ∧ concat [[emb_b; emb_a]] ⊆+ [emb_a; tie_a; emb_b; emb_c].
Proof.
  assert (group_duplicates_by_embedding first_two_similar
            [emb_a; tie_a; emb_b; emb_c] = Ok [[emb_b; emb_a]]) as H
    by (vm_compute; reflexivity).
  split; [exact H|].
  apply (embedding_groups_disjoint first_two_similar
           [emb_a; tie_a; emb_b; emb_c] [[emb_b; emb_a]] H).
Defined.

(** ** More on the metadata merge *)
Section MergeMore.
Implicit Types (target src new : gmap string string) (k : string).

Lemma merge_items_covered target (l : list (string * string)) :
  (∀ k v, (k, v) ∈ l → is_Some (target !! k)) → ∀ new (m : bool),
  foldl (λ '(new, modified) '(k, v),
           if decide (target !! k = None ∧ new !! k = None)
           then (<[k:=v]> new, true) else (new, modified)) (new, m) l
  = (new, m).
Proof.
  induction l as [|[k0 v0] l IH]; intros Hcov new m; cbn [foldl]; [done|].
  rewrite decide_False.
  - apply IH. intros k v Hin. apply (Hcov k v). by right.
  - intros [Ht _]. destruct (Hcov k0 v0) as [x Hx]; [left|]. congruence.
Qed.

Lemma merge_block_covered target src new (m : bool) :
  (∀ k, is_Some (src !! k) → is_Some (target !! k)) →
  merge_block target src (new, m) = (new, m).
Proof.
  intros Hcov. unfold merge_block. apply merge_items_covered.
  intros k v Hin. apply Hcov. apply elem_of_map_to_list in Hin. by exists v.
Qed.

Lemma merge_source_covered (fs : gmap string file) (target : metadata)
    (st : merge_state) (s : string) :
  (∀ m b k, fs !! s ≫= meta = Some m →
     is_Some (block b m !! k) → is_Some (block b target !! k)) →
  merge_source fs target st s = st.
Proof.
  intros Hcov. unfold merge_source.
  destruct (fs !! s ≫= meta) as [m|]; [|done].
  rewrite !merge_block_covered.
  - by destruct st.
  - intros k. apply (Hcov m Xmp k eq_refl).
  - intros k. apply (Hcov m Iptc k eq_refl).
  - intros k. apply (Hcov m Exif k eq_refl).
Qed.

Lemma merge_sources_covered (fs : gmap string file) (target : metadata)
    (sources : list string) : ∀ st,
  (∀ s m b k, s ∈ sources → fs !! s ≫= meta = Some m →
     is_Some (block b m !! k) → is_Some (block b target !! k)) →
  foldl (merge_source fs target) st sources = st.
Proof.
  induction sources as [|s rest IH]; intros st Hcov; cbn [foldl]; [done|].
  rewrite merge_source_covered.
  - apply IH. intros s' m b k Hin. apply Hcov. by right.
  - intros m b k. apply Hcov. left.
Qed.

Lemma first_value_Some (fs : gmap string file) (b : block_kind)
    (sources : list string) (k s : string) (m : metadata) :
  s ∈ sources → fs !! s ≫= meta = Some m → is_Some (block b m !! k) →
  is_Some (first_value fs b sources k).
Proof.
  induction sources as [|s0 rest IH]; intros Hin Hm Hk.
  { by apply elem_of_nil in Hin. }
  cbn [first_value].
  apply elem_of_cons in Hin as [<-|Hin].
  - rewrite Hm. destruct Hk as [v ->]. by exists v.
  - destruct (fs !! s0 ≫= meta) as [m0|]; [|by apply IH].
    destruct (block b m0 !! k) as [v|]; [by exists v|by apply IH].
Qed.

Lemma merge_sources_readable (fs : gmap string file) (target : metadata)
    (sources : list string) : ∀ st,
  foldl (merge_source fs target) st sources
  = foldl (merge_source fs target) st
      (filter (λ s, is_Some (fs !! s ≫= meta)) sources).
Proof.
  induction sources as [|s rest IH]; intros st; [done|].
  rewrite filter_cons. case_decide as Hs; cbn [foldl].
  - apply IH.
  - rewrite <- IH. f_equal. unfold merge_source.
    destruct (fs !! s ≫= meta); [|done]. by destruct Hs.
Qed.


(** X12.  On a kept file pyexiv2 can read, merging the same candidates a
    second time changes nothing: every field the candidates have is by then
    present on the kept file. *)
Theorem merge_image_metadata_idempotent (sources : list string)
    (target_path : string) (w : world) :
  is_Some (files w !! target_path ≫= meta) →
  merge_image_metadata sources target_path
    (merge_image_metadata sources target_path w)
  = merge_image_metadata sources target_path w.
Proof.
  intros [tm Htm].
  destruct (files w !! target_path) as [f|] eqn:Hf; [|done]. simpl in Htm.
  destruct (merge_image_metadata_readable sources target_path w f tm Hf Htm)
    as (tm' & Hfiles & Hblock & _ & _).
  set (w1 := merge_image_metadata sources target_path w) in *.
  unfold merge_image_metadata at 1.
  rewrite Hfiles, lookup_insert_eq. cbn [mbind option_bind set_meta meta].
  rewrite merge_sources_covered; [done|].
  intros s m b k Hin Hs Hk.
  destruct (decide (s = target_path)) as [->|Hne].
  - rewrite lookup_insert_eq in Hs. cbn in Hs. by injection Hs as <-.
  - rewrite lookup_insert_ne in Hs by done.
    rewrite Hblock. unfold merged_value.
    destruct (block b tm !! k) as [v|]; [by exists v|].
    by apply (first_value_Some _ _ _ _ s m).
Qed.

(** X13.  A candidate that is missing or that pyexiv2 cannot open is
    skipped: the merge is the one of the readable candidates alone. *)
Theorem merge_skips_unreadable_sources (sources : list string)
    (target_path : string) (w : world) :
  merge_image_metadata sources target_path w
  = merge_image_metadata
      (filter (λ s, is_Some (files w !! s ≫= meta)) sources) target_path w.
Proof.
  unfold merge_image_metadata.
  destruct (files w !! target_path) as [f|]; [|done].
  cbn [mbind option_bind]. destruct (meta f) as [tm|]; [|done].
  by rewrite <- merge_sources_readable.
Qed.
End MergeMore.

Lemma merge_image_metadata_idempotent_witness :
  is_Some (files world_AB !! path_A ≫= meta)
  ∧ merge_image_metadata [path_B] path_A
      (merge_image_metadata [path_B] path_A world_AB)
    = merge_image_metadata [path_B] path_A world_AB.
Proof.
  assert (is_Some (files world_AB !! path_A ≫= meta)) as Hs
    by (vm_compute; eauto).
  split; [exact Hs|].
  apply (merge_image_metadata_idempotent [path_B] path_A world_AB Hs).
Defined.

(** ** More on [_on_delete] *)
Section DeleteMore.
Context `{Pathlib}.

Lemma safety_check_Some (w : world) (sel : N * N) (to_delete : list string)
    (msg : blocked_message) :
  safety_check w sel to_delete = Some msg →
  ∃ pre q post, to_delete = pre ++ q :: post
    ∧ is_Some (files w !! q)
    ∧ (pixel_area sel < pixel_area (qpixmap w q))%N
    ∧ Forall (λ p, ¬ (pixel_area sel < pixel_area (qpixmap w p))%N) pre
    ∧ msg = mkBlocked sel.1 sel.2 (path_name q) (qpixmap w q).1 (qpixmap w q).2.
Proof.
  induction to_delete as [|p rest IH]; [done|]. cbn [safety_check].
  destruct (decide (is_Some (files w !! p))) as [Hp|Hp].
  - destruct (decide (pixel_area sel < pixel_area (qpixmap w p))%N) as [Hlt|Hlt].
    + intros [= <-]. by exists [], p, rest.
    + intros Hs. destruct (IH Hs) as (pre & q & post & -> & ? & ? & ? & ?).
      exists (p :: pre), q, post. repeat split; try done. by constructor.
  - intros Hs. destruct (IH Hs) as (pre & q & post & -> & ? & ? & ? & ?).
    exists (p :: pre), q, post. repeat split; try done. constructor; [|done].
    rewrite qpixmap_missing; [lia|]. by apply eq_None_not_Some.
Qed.

Lemma is_locked_delete_one (st : world * nat * list string) (q p : string) :
  is_locked (delete_one st q).1.1 p = is_locked st.1.1 p.
Proof.
  unfold is_locked. rewrite delete_one_files.
  case_decide as Hp; [|done]. subst.
  destruct (files st.1.1 !! q) as [f|]; cbn [after_remove]; [|done].
  by destruct (locked f) eqn:Hl.
Qed.

Lemma delete_one_outcome (st : world * nat * list string) (q : string) :
  (delete_one st q).1.2
    = (st.1.2 + (if is_locked st.1.1 q then 0 else 1))%nat
  ∧ (delete_one st q).2
    = st.2 ++ (if is_locked st.1.1 q then [path_name q] else [])
  ∧ ∀ p, images (delete_one st q).1.1 !! p
         = if decide (p = q ∧ is_locked st.1.1 q = false) then None
           else images st.1.1 !! p.
Proof.
  destruct st as [[w n] errs]. unfold delete_one, is_locked. cbn [fst snd].
  destruct (files w !! q) as [f|]; [destruct (locked f)|]; cbn [fst snd images].
  - split; [lia|]. split; [done|]. intros p. rewrite decide_False; [done|].
    by intros [_ ?].
  - split; [lia|]. split; [by rewrite app_nil_r|]. intros p.
    case_decide as Hp.
    + destruct Hp as [-> _]. apply lookup_delete_eq.
    + apply lookup_delete_ne. intros <-. by apply Hp.
  - split; [lia|]. split; [by rewrite app_nil_r|]. intros p.
    case_decide as Hp.
    + destruct Hp as [-> _]. apply lookup_delete_eq.
    + apply lookup_delete_ne. intros <-. by apply Hp.
Qed.

Lemma delete_loop_outcome (to_delete : list string) :
  ∀ st : world * nat * list string,
  (∀ p, is_locked (foldl delete_one st to_delete).1.1 p = is_locked st.1.1 p)
  ∧ (foldl delete_one st to_delete).1.2
    = (st.1.2 + length (filter (λ p, is_locked st.1.1 p = false) to_delete))%nat
  ∧ (foldl delete_one st to_delete).2
    = st.2 ++ (path_name <$> filter (λ p, is_locked st.1.1 p = true) to_delete)
  ∧ ∀ p, images (foldl delete_one st to_delete).1.1 !! p
         = if decide (p ∈ to_delete ∧ is_locked st.1.1 p = false) then None
           else images st.1.1 !! p.
Proof.
  induction to_delete as [|q rest IH]; intros st; cbn [foldl].
  { split; [done|]. split; [cbn; lia|]. split; [by rewrite app_nil_r|].
    intros p. rewrite decide_False; [done|]. intros [Hin _].
    by apply elem_of_nil in Hin. }
  destruct (IH (delete_one st q)) as (Hl & Hn & He & Hi).
  destruct (delete_one_outcome st q) as (Hn1 & He1 & Hi1).
  assert (filter (λ p, is_locked (delete_one st q).1.1 p = false) rest
          = filter (λ p, is_locked st.1.1 p = false) rest) as Hf1.
  { apply list_filter_iff. intros p. by rewrite is_locked_delete_one. }
  assert (filter (λ p, is_locked (delete_one st q).1.1 p = true) rest
          = filter (λ p, is_locked st.1.1 p = true) rest) as Hf2.
  { apply list_filter_iff. intros p. by rewrite is_locked_delete_one. }
  split; [|split; [|split]].
  - intros p. by rewrite Hl, is_locked_delete_one.
  - rewrite Hn, Hn1, Hf1, filter_cons.
    destruct (is_locked st.1.1 q) eqn:Hq.
    + rewrite decide_False by done. lia.
    + rewrite decide_True by done. cbn [length]. lia.
  - rewrite He, He1, Hf2, filter_cons.
    destruct (is_locked st.1.1 q) eqn:Hq.
    + rewrite decide_True by done. by rewrite fmap_cons, <- app_assoc.
    + rewrite decide_False by done. by rewrite app_nil_r.
  - intros p. rewrite Hi, Hi1, is_locked_delete_one.
    destruct (decide (p ∈ rest ∧ is_locked st.1.1 p = false)) as [[Hr Hp]|Hr].
    + rewrite decide_True; [done|]. split; [by right|done].
    + destruct (decide (p = q ∧ is_locked st.1.1 q = false)) as [[-> Hq]|Hq].
      * rewrite decide_True; [done|]. split; [left|done].
      * rewrite decide_False; [done|]. intros [Hin Hp].
        apply elem_of_cons in Hin as [->|Hin]; [by apply Hq|by apply Hr].
Qed.


Lemma merge_files_other (sources : list string) (target_path : string)
    (w : world) (p : string) :
  p ≠ target_path →
  files (merge_image_metadata sources target_path w) !! p = files w !! p.
Proof.
  intros Hne.
  destruct (files w !! target_path) as [f|] eqn:Hf.
  - destruct (meta f) as [tm|] eqn:Hm.
    + destruct (merge_image_metadata_readable sources target_path w f tm Hf Hm)
        as (tm' & -> & _). by rewrite lookup_insert_ne.
    + by rewrite merge_image_metadata_unreadable by (rewrite Hf; simpl; done).
  - by rewrite merge_image_metadata_unreadable by (by rewrite Hf).
Qed.

Lemma merge_files_target (sources : list string) (target_path : string)
    (w : world) :
  is_Some (files (merge_image_metadata sources target_path w) !! target_path)
  ↔ is_Some (files w !! target_path).
Proof.
  destruct (files w !! target_path) as [f|] eqn:Hf.
  - destruct (meta f) as [tm|] eqn:Hm.
    + destruct (merge_image_metadata_readable sources target_path w f tm Hf Hm)
        as (tm' & -> & _). rewrite lookup_insert_eq. split; eauto.
    + rewrite merge_image_metadata_unreadable by (rewrite Hf; simpl; done).
      simpl. by rewrite Hf.
  - rewrite merge_image_metadata_unreadable by (by rewrite Hf).
    simpl. by rewrite Hf.
Qed.

Lemma merge_images (sources : list string) (target_path : string) (w : world) :
  images (merge_image_metadata sources target_path w) = images w.
Proof.
  unfold merge_image_metadata.
  destruct (files w !! target_path) as [f|]; [|done].
  cbn [mbind option_bind]. destruct (meta f) as [tm|]; [|done].
  by destruct (modified _).
Qed.

(** what a deletion that went ahead was *)
Lemma on_delete_Deleted (sel_opt : option string) (paths : list string)
    (confirm answer_yes : bool) (w w' : world) (n : nat) (errors : list string) :
  on_delete sel_opt paths confirm answer_yes w = (w', Deleted n errors) →
  ∃ sel, sel_opt = Some sel
    ∧ foldl delete_one
        (merge_image_metadata (filter (λ p, p ≠ sel) paths) sel w, 0%nat, [])
        (filter (λ p, p ≠ sel) paths)
      = (w', n, errors).
Proof.
  unfold on_delete. destruct sel_opt as [sel|]; [|done].
  case_decide; [done|].
  destruct (safety_check _ _ _); [done|].
  destruct (confirm && negb answer_yes); [done|].
  destruct (foldl _ _ _) as [[w2 n2] e2] eqn:Hloop. intros [= <- <- <-].
  by exists sel.
Qed.

Lemma on_delete_not_Deleted (sel_opt : option string) (paths : list string)
    (confirm answer_yes : bool) (w w' : world) (out : delete_outcome) :
  on_delete sel_opt paths confirm answer_yes w = (w', out) →
  (∃ n errors, out = Deleted n errors) ∨ w' = w.
Proof.
  unfold on_delete. destruct sel_opt as [sel|]; [|intros [= <- <-]; by right].
  case_decide; [intros [= <- <-]; by right|].
  destruct (safety_check _ _ _); [intros [= <- <-]; by right|].
  destruct (confirm && negb answer_yes); [intros [= <- <-]; by right|].
  destruct (foldl _ _ _) as [[w2 n2] e2]. intros [= <- <-]. left. eauto.
Qed.

(** X14.  A deletion is blocked only for a reason: the message names the
    first path to delete, in the order of the group, whose file is on disk
    with a strictly larger pixel area than the kept image, and the world is
    left as it was. *)
Theorem deletion_blocked_names_first_larger (sel_opt : option string)
    (paths : list string) (confirm answer_yes : bool) (w w' : world)
    (msg : blocked_message) :
  on_delete sel_opt paths confirm answer_yes w = (w', DeletionBlocked msg) →
  w' = w
  ∧ ∃ sel pre q post,
      sel_opt = Some sel
      ∧ filter (λ p, p ≠ sel) paths = pre ++ q :: post
      ∧ is_Some (files w !! q)
      ∧ (pixel_area (qpixmap w sel) < pixel_area (qpixmap w q))%N
      ∧ Forall (λ p, ¬ (pixel_area (qpixmap w sel) < pixel_area (qpixmap w p))%N) pre
      ∧ msg = mkBlocked (qpixmap w sel).1 (qpixmap w sel).2 (path_name q)
                (qpixmap w q).1 (qpixmap w q).2.
Proof.
  unfold on_delete. destruct sel_opt as [sel|]; [|done].
  case_decide; [done|].
  destruct (safety_check _ _ _) as [msg'|] eqn:Hs.
  - intros [= <- <-]. split; [done|].
    destruct (safety_check_Some _ _ _ _ Hs) as (pre & q & post & ? & ? & ? & ? & ?).
    by exists sel, pre, q, post.
  - destruct (confirm && negb answer_yes); [done|].
    by destruct (foldl _ _ _) as [[w2 n2] e2].
Qed.

(** X15.  Whatever the outcome, the kept file is still there with its
    record, and files and records outside the group are untouched; unless
    the deletion went ahead, nothing changes at all. *)
Theorem on_delete_keeps_selected_and_others (sel_opt : option string)
    (paths : list string) (confirm answer_yes : bool) (w w' : world)
    (out : delete_outcome) :
  on_delete sel_opt paths confirm answer_yes w = (w', out) →
  ((∃ n errors, out = Deleted n errors) ∨ w' = w)
  ∧ (∀ sel, sel_opt = Some sel →
       (is_Some (files w' !! sel) ↔ is_Some (files w !! sel))
       ∧ images w' !! sel = images w !! sel)
  ∧ (∀ p, p ∉ paths →
       images w' !! p = images w !! p
       ∧ (sel_opt ≠ Some p → files w' !! p = files w !! p)).
Proof.
  intros Hd. split; [by eapply on_delete_not_Deleted|].
  destruct (on_delete_not_Deleted _ _ _ _ _ _ _ Hd) as [(n & errors & ->)| ->].
  2:{ split; [done|]. intros p _. done. }
  apply on_delete_Deleted in Hd as (sel & -> & Hloop).
  set (to_delete := filter (λ p, p ≠ sel) paths) in *.
  set (w1 := merge_image_metadata to_delete sel w) in *.
  pose proof (delete_loop_files to_delete) as Hfiles.
  destruct (delete_loop_outcome to_delete (w1, 0%nat, [])) as (_ & _ & _ & Himg).
  rewrite Hloop in Himg. cbn [fst snd] in Himg.
  assert (∀ p, files w' !! p
             = if decide (p ∈ to_delete) then after_remove (files w1 !! p)
               else files w1 !! p) as Hfiles'.
  { intros p. specialize (Hfiles p (w1, 0%nat, [])). by rewrite Hloop in Hfiles. }
  assert (sel ∉ to_delete) as Hsel.
  { unfold to_delete. rewrite list_elem_of_filter. tauto. }
  split.
  - intros ? [= <-]. split.
    + rewrite Hfiles', decide_False by done. apply merge_files_target.
    + rewrite Himg, decide_False by tauto. unfold w1. by rewrite merge_images.
  - intros p Hp.
    assert (p ∉ to_delete) as Hp'.
    { unfold to_delete. rewrite list_elem_of_filter. tauto. }
    split.
    + rewrite Himg, decide_False by tauto. unfold w1. by rewrite merge_images.
    + intros Hne. rewrite Hfiles', decide_False by done.
      apply merge_files_other. congruence.
Qed.

End DeleteMore.

Lemma deletion_blocked_names_first_larger_witness :
  ∃ w' msg,
    on_delete (Some path_B) [path_A; path_B] true true world_AB
    = (w', DeletionBlocked msg)
    ∧ w' = world_AB.
Proof.
  eexists _, _. split; [vm_compute; reflexivity|].
  eapply proj1.
  eapply (deletion_blocked_names_first_larger (Some path_B) [path_A; path_B]
            true true world_AB).
  vm_compute. reflexivity.
Defined.

Lemma on_delete_keeps_selected_and_others_witness :
  ∃ w', on_delete (Some path_A) [path_A; path_B] true true world_AB
        = (w', Deleted 1 [])
    ∧ (is_Some (files w' !! path_A) ↔ is_Some (files world_AB !! path_A)).
Proof.
  eexists. split; [vm_compute; reflexivity|].
  eapply proj1.
  eapply (on_delete_keeps_selected_and_others (Some path_A) [path_A; path_B]
            true true world_AB _ (Deleted 1 [])); [|reflexivity].
  vm_compute. reflexivity.
Defined.


(** ** More on [_run_auto_select] *)
Section AutoSelectMore.
Context `{Pathlib}.

Lemma older_winner_exists (cs : list candidate) :
  cs ≠ [] → ∃ c, c ∈ cs ∧ older_winner cs c = true.
Proof.
  intros Hne. destruct (min_mtime_is_min cs Hne) as [Hin Hmin].
  apply list_elem_of_fmap in Hin as (c & Hc & Hin). exists c. split; [done|].
  apply older_winner_spec; [done|]. exists (min_mtime cs).
  split; [split; [|done]; apply list_elem_of_fmap; eauto|].
  rewrite <- Hc. unfold Qcminus. rewrite Qcplus_opp_r. reflexivity.
Qed.

Lemma larger_winner_exists (cs : list candidate) :
  cs ≠ [] → ∃ c, c ∈ cs ∧ larger_winner cs c = true.
Proof.
  intros Hne.
  destruct (max_Z_is_max (c_size <$> cs)) as [Hin Hmax].
  { by destruct cs. }
  apply list_elem_of_fmap in Hin as (c & Hc & Hin). exists c. split; [done|].
  apply larger_winner_spec; [done|]. rewrite <- Hc.
  split; [apply list_elem_of_fmap; eauto|done].
Qed.

Lemma deeper_winner_exists (cs : list candidate) :
  cs ≠ [] → ∃ c, c ∈ cs ∧ deeper_winner cs c = true.
Proof.
  intros Hne.
  destruct (max_Z_is_max (c_depth <$> cs)) as [Hin Hmax].
  { by destruct cs. }
  apply list_elem_of_fmap in Hin as (c & Hc & Hin). exists c. split; [done|].
  apply deeper_winner_spec; [done|]. rewrite <- Hc.
  split; [apply list_elem_of_fmap; eauto|done].
Qed.

Lemma points_upper (crit : criteria) (cs : list candidate) (c : candidate) :
  points crit cs c ≤ active_criteria crit.
Proof.
  unfold points, active_criteria.
  destruct (chk_older crit), (chk_larger crit), (chk_deeper crit),
    (older_winner cs c), (larger_winner cs c), (deeper_winner cs c);
    cbn [andb]; lia.
Qed.

(** with a criterion enabled, some candidate scores a point *)
Lemma top_points_positive (crit : criteria) (cs : list candidate) :
  cs ≠ [] → active_criteria crit ≠ 0 →
  0 < max_Z (points crit cs <$> cs).
Proof.
  intros Hne Hact.
  destruct (max_Z_is_max (points crit cs <$> cs)) as [_ Hmax].
  { by destruct cs. }
  assert (∃ c, c ∈ cs ∧ 0 < points crit cs c) as (c & Hc & Hpos).
  { unfold active_criteria in Hact. unfold points.
    destruct (chk_older crit) eqn:Ho.
    - destruct (older_winner_exists cs Hne) as (c & Hc & Hw). exists c.
      split; [done|]. rewrite Hw. cbn [andb].
      destruct (_ && _), (_ && _); lia.
    - destruct (chk_larger crit) eqn:Hl.
      + destruct (larger_winner_exists cs Hne) as (c & Hc & Hw). exists c.
        split; [done|]. rewrite Hw. cbn [andb].
        destruct (_ && _); lia.
      + destruct (chk_deeper crit) eqn:Hd; [|done].
        destruct (deeper_winner_exists cs Hne) as (c & Hc & Hw). exists c.
        split; [done|]. rewrite Hw. cbn [andb]. lia. }
  assert (points crit cs c ∈ points crit cs <$> cs) as Hin
    by (apply list_elem_of_fmap; eauto).
  specialize (Hmax _ Hin). lia.
Qed.

(** X17.  Auto-select clears the selection only on a tie: when it selects
    nothing on a group of distinct paths, two different candidates share the
    greatest total, and that total is positive.  The branch for a greatest
    total of 0 is never taken. *)
Theorem auto_select_none_only_on_tie (crit : criteria) (group : list string)
    (w : world) :
  NoDup group →
  run_auto_select crit group w = Select_none →
  ∃ c1 c2, c1 ∈ gather w group ∧ c2 ∈ gather w group
    ∧ c_path c1 ≠ c_path c2
    ∧ points crit (gather w group) c1 = points crit (gather w group) c2
    ∧ 0 < points crit (gather w group) c1
    ∧ ∀ c, c ∈ gather w group →
        points crit (gather w group) c ≤ points crit (gather w group) c1.
Proof.
  intros Hnd. rewrite run_auto_select_decision by done.
  pose proof (gather_NoDup w group Hnd) as Hnd'.
  generalize dependent (gather w group). intros cs Hnd'.
  case_decide as Hcs; [done|]. case_decide as Hact; [done|].
  pose proof (top_points_positive crit cs Hcs Hact) as Hpos.
  case_decide as Htop; [lia|].
  destruct (max_Z_is_max (points crit cs <$> cs)) as [Hin Hmax].
  { by destruct cs. }
  set (top := max_Z (points crit cs <$> cs)) in *.
  destruct (filter (λ c, points crit cs c = top) cs) as [|c1 [|c2 rest]] eqn:Hbest.
  - apply list_elem_of_fmap in Hin as (c & Hc & Hin).
    assert (c ∈ filter (λ c, points crit cs c = top) cs) as Hc'
      by (by apply list_elem_of_filter).
    rewrite Hbest in Hc'. by apply elem_of_nil in Hc'.
  - done.
  - intros _.
    assert (c1 ∈ filter (λ c, points crit cs c = top) cs) as H1
      by (rewrite Hbest; left).
    assert (c2 ∈ filter (λ c, points crit cs c = top) cs) as H2
      by (rewrite Hbest; right; left).
    apply list_elem_of_filter in H1 as [Hp1 H1].
    apply list_elem_of_filter in H2 as [Hp2 H2].
    exists c1, c2. repeat split; try done.
    + assert (NoDup (c_path <$> c1 :: c2 :: rest)) as Hnd2.
      { eapply sublist_NoDup; [exact Hnd'|]. apply fmap_sublist.
        rewrite <- Hbest. apply sublist_filter. }
      rewrite !fmap_cons in Hnd2. apply NoDup_cons in Hnd2 as [Hn _].
      intros Heq. apply Hn. rewrite Heq. left.
    + congruence.
    + lia.
    + intros c Hc. rewrite Hp1. apply Hmax. apply list_elem_of_fmap. eauto.
Qed.

(** X18.  When exactly one path of the group can be statted and a
    criterion is enabled, that path is selected. *)
Theorem auto_select_single_candidate (crit : criteria) (group : list string)
    (w : world) (c : candidate) :
  gather w group = [c] →
  active_criteria crit ≠ 0 →
  run_auto_select crit group w = Select_path (c_path c).
Proof.
  intros Hg Hact. unfold run_auto_select.
  destruct group as [|p0 group']; [done|]. rewrite Hg.
  rewrite score_table_points by (cbn; apply NoDup_singleton).
  rewrite decide_False by done.
  cbn [table fmap list_fmap map snd max_Z foldl].
  assert (0 < points crit [c] c) as Hpos.
  { pose proof (top_points_positive crit [c]) as Ht.
    cbn [fmap list_fmap max_Z foldl] in Ht. by apply Ht. }
  rewrite decide_False by lia.
  rewrite filter_cons, decide_True by done. done.
Qed.
End AutoSelectMore.

Lemma auto_select_none_only_on_tie_witness :
  run_auto_select (mkCriteria false true true) [path_A; path_B] world_AB
  = Select_none
  ∧ ∃ c1 c2, c1 ∈ gather world_AB [path_A; path_B]
      ∧ c2 ∈ gather world_AB [path_A; path_B]
      ∧ c_path c1 ≠ c_path c2.
Proof.
  assert (run_auto_select (mkCriteria false true true) [path_A; path_B] world_AB
          = Select_none) as Hr by (vm_compute; reflexivity).
  split; [exact Hr|].
  destruct (auto_select_none_only_on_tie (mkCriteria false true true)
              [path_A; path_B] world_AB) as (c1 & c2 & H1 & H2 & Hne & _).
  - apply NoDup_cons. split; [|apply NoDup_singleton].
    rewrite list_elem_of_singleton. discriminate.
  - exact Hr.
  - by exists c1, c2.
Defined.

Lemma auto_select_single_candidate_witness :
  run_auto_select all_criteria [path_A; "/photos/gone.jpg"] world_AB
  = Select_path path_A.
Proof.
  apply (auto_select_single_candidate all_criteria [path_A; "/photos/gone.jpg"]
           world_AB
           (mkCandidate path_A (st_mtime file_A) (st_size file_A)
              (path_parts_len path_A))).
  - vm_compute. reflexivity.
  - discriminate.
Defined.

(** ** More on [scan_folders] *)
Section ScanMore.
Variable env : scan_env.

Lemma call_progress_db i h p st :
  db (call_progress env i h p st).1 = db st
  ∧ counters (call_progress env i h p st).1 = counters st.
Proof. unfold call_progress. by destruct (progress_cb env). Qed.

Lemma try_file_rows i p st :
  rows (db (try_file env i p st).1) = rows_after env i p (rows (db st)).
Proof.
  unfold try_file, rows_after.
  destruct (extract env i p) as [f|e]; [|done].
  destruct (upsert_raises env i); [done|].
  case_decide; [destruct (commit_raises env i)|]; try done;
    by rewrite (proj1 (call_progress_db _ _ _ _)).
Qed.

Lemma scan_file_rows i p st :
  rows (db (scan_file env i p st).1) = rows_after env i p (rows (db st)).
Proof.
  unfold scan_file.
  pose proof (try_file_rows i p
    (mkScanState (mkScanResult (scanned (counters st) + 1) (indexed (counters st))
                    (skipped (counters st))) (db st) (calls st))) as Ht.
  destruct (try_file _ _ _ _) as [st1 [e|]]; cbn [fst] in *; [|done].
  by rewrite (proj1 (call_progress_db _ _ _ _)).
Qed.

Lemma rows_after_other i p rs k :
  k ≠ p → rows_after env i p rs !! k = rs !! k.
Proof.
  intros Hne. unfold rows_after.
  destruct (extract env i p); [destruct (upsert_raises env i)|]; try done.
  by rewrite lookup_insert_ne.
Qed.

(** every row is an old one, or the record of one of the scanned paths *)
Lemma scan_loop_rows_origin paths : ∀ i st k,
  rows (db (scan_loop env i paths st).1) !! k = rows (db st) !! k
  ∨ ∃ j f, paths !! j = Some k ∧ extract env (i + j) k = Ok f
      ∧ rows (db (scan_loop env i paths st).1) !! k = Some (record_of k f).
Proof.
  induction paths as [|p rest IH]; intros i st k; cbn [scan_loop]; [by left|].
  pose proof (scan_file_rows i p st) as Hrows.
  destruct (scan_file env i p st) as [st1 [e|]]; cbn [fst] in *.
  - rewrite Hrows. unfold rows_after.
    destruct (extract env i p) as [f|] eqn:He; [|by left].
    destruct (upsert_raises env i); [by left|].
    destruct (decide (k = p)) as [->|Hne].
    + right. exists 0%nat, f. rewrite Nat.add_0_r, lookup_insert_eq. done.
    + left. by rewrite lookup_insert_ne.
  - destruct (IH (S i) st1 k) as [Heq|(j & f & Hj & He & Hr)].
    + rewrite Heq, Hrows. unfold rows_after.
      destruct (extract env i p) as [f|] eqn:He; [|by left].
      destruct (upsert_raises env i); [by left|].
      destruct (decide (k = p)) as [->|Hne].
      * right. exists 0%nat, f. rewrite Nat.add_0_r, lookup_insert_eq. done.
      * left. by rewrite lookup_insert_ne.
    + right. exists (S j), f. rewrite Nat.add_succ_r. done.
Qed.

(** a loop that ran to its end has stored the last occurrence of a path *)
Lemma scan_loop_rows_last paths : ∀ i st st',
  scan_loop env i paths st = (st', None) →
  ∀ j p f, paths !! j = Some p → extract env (i + j) p = Ok f →
    upsert_raises env (i + j) = false →
    p ∉ drop (S j) paths →
    rows (db st') !! p = Some (record_of p f).
Proof.
  induction paths as [|p0 rest IH]; intros i st st' Hloop j p f Hj He Hu Hlast;
    [done|].
  cbn [scan_loop] in Hloop.
  pose proof (scan_file_rows i p0 st) as Hrows.
  destruct (scan_file env i p0 st) as [st1 [e|]]; [done|]. cbn [fst] in Hrows.
  destruct j as [|j].
  - cbn in Hj. injection Hj as ->. rewrite Nat.add_0_r in He, Hu.
    cbn [drop] in Hlast.
    destruct (scan_loop_rows_origin rest (S i) st1 p) as [Heq|(j & f' & Hj & _)].
    + rewrite Hloop in Heq. cbn [fst] in Heq. rewrite Heq, Hrows.
      unfold rows_after. by rewrite He, Hu, lookup_insert_eq.
    + exfalso. apply Hlast. by eapply list_elem_of_lookup_2.
  - cbn in Hj. cbn [drop] in Hlast. rewrite Nat.add_succ_r in He, Hu.
    by apply (IH (S i) st1 st' Hloop j p f).
Qed.



Lemma scan_file_calls i p st :
  callback_quiet env →
  ∃ st', scan_file env i p st = (st', None)
    ∧ scanned (counters st') = scanned (counters st) + 1
    ∧ calls st'
      = calls st ++ match progress_cb env with
                    | Some _ => [(scanned (counters st'), indexed (counters st'),
                                  skipped (counters st'), p)]
                    | None => []
                    end.
Proof.
  intros Hq. unfold scan_file, try_file, call_progress, callback_quiet in *.
  destruct (progress_cb env) as [cb|] eqn:Hcb.
  - specialize (Hq cb eq_refl).
    destruct (extract env i p) as [f|e]; [destruct (upsert_raises env i)|].
    + rewrite Hq. eexists. split; [done|]. done.
    + case_decide; [destruct (commit_raises env i)|]; rewrite ?Hq;
        (eexists; split; [done|]; done).
    + rewrite Hq. eexists. split; [done|]. done.
  - destruct (extract env i p) as [f|e]; [destruct (upsert_raises env i)|].
    + eexists. split; [done|]. cbn. by rewrite app_nil_r.
    + case_decide; [destruct (commit_raises env i)|];
        (eexists; split; [done|]; cbn; by rewrite app_nil_r).
    + eexists. split; [done|]. cbn. by rewrite app_nil_r.
Qed.

Lemma scan_loop_calls paths : callback_quiet env → ∀ i st,
  ∃ st', scan_loop env i paths st = (st', None)
    ∧ (λ c : Z * Z * Z * string, (c.1.1.1, c.2)) <$> calls st'
      = ((λ c : Z * Z * Z * string, (c.1.1.1, c.2)) <$> calls st)
        ++ match progress_cb env with
           | Some _ =>
               zip ((λ n, scanned (counters st) + Z.of_nat n)
                      <$> seq 1 (length paths)) paths
           | None => []
           end.
Proof.
  intros Hq. induction paths as [|p rest IH]; intros i st; cbn [scan_loop].
  { exists st. split; [done|]. destruct (progress_cb env); by rewrite app_nil_r. }
  destruct (scan_file_calls i p st Hq) as (st1 & -> & Hs & Hc).
  destruct (IH (S i) st1) as (st2 & -> & Hc2).
  exists st2. split; [done|]. rewrite Hc2, Hc, fmap_app, <- app_assoc. f_equal.
  destruct (progress_cb env); [|done].
  cbn [length seq fmap list_fmap zip zip_with app fst snd]. rewrite Hs.
  change (Z.of_nat 1) with 1. f_equal. f_equal.
  rewrite <- (fmap_S_seq 1), <- list_fmap_compose.
  apply list_fmap_ext. intros _ n _. cbn [compose]. lia.
Qed.

(** X19.  A scan never removes or damages a record: whether it returns or
    raises, every row of the store afterwards is a row it had before, or
    the record of one of the scanned paths, keyed by that path and carrying
    the score of the formula. *)
Theorem scan_rows_origin (db0 : PhotoDB) (paths : list string) (k : string) :
  rows (db (scan_folders env db0 paths).1) !! k = rows db0 !! k
  ∨ ∃ j f, paths !! j = Some k ∧ extract env j k = Ok f
      ∧ rows (db (scan_folders env db0 paths).1) !! k = Some (record_of k f).
Proof.
  unfold scan_folders.
  pose proof (scan_loop_rows_origin paths 0
                (mkScanState (mkScanResult 0 0 0) db0 []) k) as Ho.
  destruct (scan_loop env 0 paths _) as [st [e|]]; cbn [fst] in *; [done|].
  by destruct (final_commit_raises env).
Qed.

(** X20.  After a scan that returned, the store holds, committed, the
    record of every path whose extraction and write succeeded; for a path
    scanned more than once, the record of its last occurrence. *)
Theorem scan_then_lookup (db0 : PhotoDB) (paths : list string)
    (res : ScanResult) (j : nat) (p : string) (f : features) :
  (scan_folders env db0 paths).2 = Ok res →
  paths !! j = Some p →
  extract env j p = Ok f →
  upsert_raises env j = false →
  p ∉ drop (S j) paths →
  rows (db (scan_folders env db0 paths).1) !! p = Some (record_of p f)
  ∧ committed (db (scan_folders env db0 paths).1)
    = rows (db (scan_folders env db0 paths).1).
Proof.
  unfold scan_folders.
  destruct (scan_loop env 0 paths _) as [st [e|]] eqn:Hloop; [done|].
  destruct (final_commit_raises env); [done|]. cbn [fst snd commit db rows committed].
  intros _ Hj He Hu Hlast. split; [|done].
  by apply (scan_loop_rows_last paths 0 _ st Hloop j p f).
Qed.


(** X22.  With a callback that returns normally, it is called exactly
    once per file, in the order of the files, with the running number of the
    file and its path, whatever fails on the way; without a callback no
    call is made. *)
Theorem scan_calls_once_per_file (db0 : PhotoDB) (paths : list string) :
  callback_quiet env →
  (λ c : Z * Z * Z * string, (c.1.1.1, c.2)) <$> calls (scan_folders env db0 paths).1
  = match progress_cb env with
    | Some _ => zip (Z.of_nat <$> seq 1 (length paths)) paths
    | None => []
    end.
Proof.
  intros Hq. unfold scan_folders.
  destruct (scan_loop_calls paths Hq 0 (mkScanState (mkScanResult 0 0 0) db0 []))
    as (st & -> & Hc).
  assert (calls (if final_commit_raises env then (st, Raise SqliteError)
                 else (mkScanState (counters st) (commit (db st)) (calls st),
                       Ok (counters st))).1 = calls st) as ->
    by (by destruct (final_commit_raises env)).
  rewrite Hc. cbn [calls fmap list_fmap app scanned counters].
  destruct (progress_cb env); [|done]. f_equal.
Qed.
End ScanMore.

Lemma scan_then_lookup_witness :
  rows (db (scan_folders env_upsert_fails empty_db ["a.jpg"; "b.jpg"]).1) !! "b.jpg"
  = Some (record_of "b.jpg" sample_features).
Proof.
  eapply proj1.
  eapply (scan_then_lookup env_upsert_fails empty_db ["a.jpg"; "b.jpg"] _ 1 "b.jpg"
            sample_features).
  - vm_compute. reflexivity.
  - reflexivity.
  - reflexivity.
  - reflexivity.
  - apply not_elem_of_nil.
Defined.


Lemma scan_calls_once_per_file_witness :
  (λ c : Z * Z * Z * string, (c.1.1.1, c.2))
    <$> calls (scan_folders env_upsert_fails empty_db ["a.jpg"; "b.jpg"]).1
  = [(1, "a.jpg"); (2, "b.jpg")].
Proof.
  apply (scan_calls_once_per_file env_upsert_fails empty_db ["a.jpg"; "b.jpg"]).
  intros cb [= <-] i h. reflexivity.
Defined.

Section ScanCallback.
Variable env : scan_env.

(** X23.  A callback that raises in the [try] block, after the record was
    written, is called a second time from the handler: the file is counted
    both as indexed and as skipped, its record stays in the store, and the
    loop goes on. *)
Theorem callback_failure_counted_twice (i : nat) (p : string) (st : scan_state)
    (cb : nat → bool → bool) (f : features) :
  progress_cb env = Some cb →
  extract env i p = Ok f →
  upsert_raises env i = false →
  commit_raises env i = false →
  cb i false = true →
  cb i true = false →
  ∃ st', scan_file env i p st = (st', None)
    ∧ counters st'
      = mkScanResult (scanned (counters st) + 1) (indexed (counters st) + 1)
          (skipped (counters st) + 1)
    ∧ calls st'
      = calls st
        ++ [(scanned (counters st) + 1, indexed (counters st) + 1,
             skipped (counters st), p);
            (scanned (counters st) + 1, indexed (counters st) + 1,
             skipped (counters st) + 1, p)]
    ∧ rows (db st') !! p = Some (record_of p f).
Proof.
  intros Hcb He Hu Hc Ht Hh.
  unfold scan_file, try_file, call_progress.
  rewrite He, Hu, Hc, Hcb. cbn [counters indexed scanned skipped db calls].
  case_decide; rewrite Ht; cbn [counters indexed scanned skipped db calls];
    rewrite Hh; (eexists; split; [done|]);
    cbn [counters indexed scanned skipped db calls commit rows upsert_image path];
    (split; [done|]); (split; [by rewrite <- app_assoc|]);
    apply lookup_insert_eq.
Qed.
End ScanCallback.

Lemma callback_failure_counted_twice_witness :
  ∃ st', scan_file env_callback_try_raises 0 "a.jpg"
           (mkScanState (mkScanResult 0 0 0) empty_db []) = (st', None)
    ∧ counters st' = mkScanResult 1 1 1.
Proof.
  destruct (callback_failure_counted_twice env_callback_try_raises 0 "a.jpg"
              (mkScanState (mkScanResult 0 0 0) empty_db [])
              (λ i h, bool_decide (i = 0%nat) && negb h) sample_features)
    as (st' & Hs & Hc & _); try reflexivity.
  exists st'. split; [exact Hs|exact Hc].
Defined.

(** ** Navigation between the groups *)
Section NavigationFacts.

Lemma load_group_index_in_range (d : dialog) :
  dlg_groups d ≠ [] →
  in_range (load_group_index d) ∧ dlg_groups (load_group_index d) = dlg_groups d.
Proof.
  intros Hne. unfold load_group_index, in_range.
  assert (0 < Z.of_nat (length (dlg_groups d))) by (destruct (dlg_groups d); [done|cbn; lia]).
  rewrite decide_False by lia. cbn [dlg_groups current_index].
  split; [|done]. repeat case_decide; lia.
Qed.

Lemma load_group_index_id (d : dialog) :
  in_range d → load_group_index d = d.
Proof.
  unfold load_group_index, in_range. intros Hr.
  rewrite decide_False by lia.
  rewrite (decide_False (P := current_index d < 0)) by lia.
  rewrite decide_False by lia. by destruct d.
Qed.

(** X24.  The buttons keep the index on a group: from a state whose index
    is one of a group, Previous and Next lead to such a state over the same
    groups, Previous undoes Next and Next undoes Previous; and whatever the
    index was, loading a non-empty list of groups clamps it to one. *)
Theorem navigation_index_in_range (d : dialog) :
  in_range d →
  (in_range (on_prev d) ∧ dlg_groups (on_prev d) = dlg_groups d)
  ∧ (in_range (on_next d) ∧ dlg_groups (on_next d) = dlg_groups d)
  ∧ (current_index d < Z.of_nat (length (dlg_groups d)) - 1 →
     current_index (on_next d) = current_index d + 1 ∧ on_prev (on_next d) = d)
  ∧ (0 < current_index d →
     current_index (on_prev d) = current_index d - 1 ∧ on_next (on_prev d) = d)
  ∧ (∀ i, in_range (load_group_index (mkDialog (dlg_groups d) i))).
Proof.
  intros Hr. unfold in_range in Hr.
  assert (∀ i, 0 ≤ i < Z.of_nat (length (dlg_groups d)) →
            load_group_index (mkDialog (dlg_groups d) i) = mkDialog (dlg_groups d) i)
    as Hload by (intros i Hi; by apply load_group_index_id).
  split; [|split; [|split; [|split]]].
  - unfold on_prev. case_decide; [|done]. rewrite Hload by lia.
    unfold in_range. cbn. split; [lia|done].
  - unfold on_next. case_decide; [|done]. rewrite Hload by lia.
    unfold in_range. cbn. split; [lia|done].
  - intros Hlt. unfold on_next. rewrite decide_True by done.
    rewrite Hload by lia. cbn [current_index]. split; [done|].
    unfold on_prev. cbn [current_index dlg_groups]. rewrite decide_True by lia.
    rewrite Hload by lia. destruct d. cbn. f_equal. lia.
  - intros Hlt. unfold on_prev. rewrite decide_True by done.
    rewrite Hload by lia. cbn [current_index]. split; [done|].
    unfold on_next. cbn [current_index dlg_groups]. rewrite decide_True by lia.
    rewrite Hload by lia. destruct d. cbn. f_equal. lia.
  - intros i. apply load_group_index_in_range. cbn.
    destruct (dlg_groups d); [cbn in Hr; lia|done].
Qed.

(** X25.  Removing the group on display never raises when the index is
    one of a group; it deletes that group alone, and the dialog then shows
    the group that followed it, or the one before it if it was the last; after the only group is removed nothing is on display. *)
Theorem remove_current_group_shows_next (d : dialog) :
  in_range d →
  ∃ d', remove_current_group_from_list d = Some d'
    ∧ dlg_groups d' = delete (Z.to_nat (current_index d)) (dlg_groups d)
    ∧ (dlg_groups d' ≠ [] → in_range d')
    ∧ current_group d'
      = if decide (current_index d + 1 < Z.of_nat (length (dlg_groups d)))
        then dlg_groups d !! Z.to_nat (current_index d + 1)
        else if decide (0 < current_index d)
             then dlg_groups d !! Z.to_nat (current_index d - 1)
             else None.
Proof.
  intros Hr. unfold in_range in Hr.
  unfold remove_current_group_from_list, py_del.
  rewrite decide_True by done. cbn [mbind option_bind].
  set (gs := delete (Z.to_nat (current_index d)) (dlg_groups d)).
  assert (Z.of_nat (length gs) = Z.of_nat (length (dlg_groups d)) - 1) as Hlen.
  { unfold gs. rewrite length_delete.
    - destruct (dlg_groups d); cbn in *; lia.
    - apply lookup_lt_is_Some. lia. }
  eexists. split; [done|].
  destruct (decide (current_index d + 1 < Z.of_nat (length (dlg_groups d))))
    as [Hnext|Hlast].
  - rewrite decide_False by lia.
    rewrite load_group_index_id by (unfold in_range; cbn; lia).
    cbn [dlg_groups]. split; [done|]. split.
    + intros _. unfold in_range. cbn. lia.
    + unfold current_group, py_index. cbn [dlg_groups current_index].
      rewrite decide_True by lia. unfold gs.
      rewrite list_lookup_delete_ge by lia. f_equal. lia.
  - rewrite decide_True by lia. rewrite Hlen.
    destruct (decide (0 < current_index d)) as [Hpos|Hzero].
    + rewrite load_group_index_id by (unfold in_range; cbn; lia).
      cbn [dlg_groups]. split; [done|]. split.
      * intros _. unfold in_range. cbn. lia.
      * unfold current_group, py_index. cbn [dlg_groups current_index].
        rewrite decide_True by lia. unfold gs.
        rewrite list_lookup_delete_lt by lia. f_equal. lia.
    + assert (gs = []) as Hgs.
      { apply length_zero_iff_nil. lia. }
      unfold load_group_index. cbn [dlg_groups current_index].
      rewrite decide_True by lia. cbn [dlg_groups]. split; [done|].
      split; [done|].
      unfold current_group, py_index. cbn [dlg_groups current_index].
      rewrite Hgs. cbn [length]. rewrite decide_False by lia.
      by rewrite decide_False by lia.
Qed.
End NavigationFacts.

Lemma navigation_index_in_range_witness :
  in_range three_groups ∧ on_prev (on_next three_groups) = three_groups.
Proof.
  assert (in_range three_groups) as Hr by (unfold in_range; cbn; lia).
  split; [exact Hr|].
  destruct (navigation_index_in_range three_groups Hr) as (_ & _ & Hn & _).
  apply Hn. cbn. lia.
Defined.

Lemma remove_current_group_shows_next_witness :
  ∃ d', remove_current_group_from_list three_groups = Some d'
    ∧ dlg_groups d' = [["a.jpg"; "b.jpg"]; ["e.jpg"; "f.jpg"]].
Proof.
  destruct (remove_current_group_shows_next three_groups) as (d' & Hd & Hg & _).
  - unfold in_range. cbn. lia.
  - exists d'. split; [exact Hd|exact Hg].
Defined.

(** ** [_on_ignore] *)
Section IgnoreFacts.

Lemma delete_all_lookup (paths : list string) (k : string) :
  ∀ im : gmap string ImageRecord,
  foldl (λ im p, delete p im) im paths !! k
  = if decide (k ∈ paths) then None else im !! k.
Proof.
  induction paths as [|p rest IH]; intros im; cbn [foldl].
  { rewrite decide_False; [done|apply not_elem_of_nil]. }
  rewrite IH. destruct (decide (k ∈ rest)) as [Hr|Hr].
  - rewrite decide_True; [done|by right].
  - destruct (decide (k = p)) as [->|Hne].
    + rewrite lookup_delete_eq. rewrite decide_True; [done|left].
    + rewrite lookup_delete_ne by done. rewrite decide_False; [done|].
      rewrite elem_of_cons. intros [?|?]; done.
Qed.

(** X26.  Ignoring a group touches no file: when the user confirms, the
    records of the group's paths, and only those, leave the store; when
    the user declines nothing changes. *)
Theorem on_ignore_removes_records_only (paths : list string) (answer_yes : bool)
    (w : world) :
  files (on_ignore paths answer_yes w) = files w
  ∧ (∀ k, images (on_ignore paths answer_yes w) !! k
          = if decide (answer_yes = true ∧ k ∈ paths) then None
            else images w !! k)
  ∧ (answer_yes = false → on_ignore paths answer_yes w = w).
Proof.
  unfold on_ignore. destruct answer_yes; cbn [negb files images].
  - split; [done|]. split; [|done]. intros k. rewrite delete_all_lookup.
    destruct (decide (k ∈ paths)).
    + by rewrite decide_True.
    + rewrite decide_False; [done|]. by intros [_ ?].
  - split; [done|]. split; [|done]. intros k.
    rewrite decide_False; [done|]. by intros [? _].
Qed.
End IgnoreFacts.

(** ** [get_image_metadata] *)
Section ImageMetadataFacts.
Variable strip : string → string.
Variable contains : string → string → bool.

Lemma append_space_nonempty (a b : string) : a +:+ " " +:+ b ≠ "".
Proof. destruct a; discriminate. Qed.

Lemma truthy_nonempty (o : option string) :
  truthy o = true → default "" o ≠ "".
Proof.
  destruct o as [s|]; cbn; [|done]. intros Hs. by apply bool_decide_eq_true in Hs.
Qed.

Lemma three_fields (m : list (string * string)) (x y z : string) :
  x ≠ "" → y ≠ "" → z ≠ "" →
  m = [("Device", x); ("Date", y); ("GPS", z)]
  ∨ m = [("Device", x); ("GPS", z); ("Date", y)]
  ∨ m = [("Date", y); ("GPS", z); ("Device", x)]
  ∨ m = [("GPS", z); ("Device", x); ("Date", y)] →
  (∀ k, is_Some (dict_get k m) ↔ k ∈ ["Device"; "Date"; "GPS"])
  ∧ length m = 3%nat
  ∧ (∀ k v, dict_get k m = Some v → v ≠ "")
  ∧ dict_get "Device" m = Some x
  ∧ dict_get "Date" m = Some y
  ∧ dict_get "GPS" m = Some z.
Proof.
  intros Hx Hy Hz Hm.
  assert (∀ k v, dict_get k m = Some v →
            (k = "Device" ∧ v = x) ∨ (k = "Date" ∧ v = y) ∨ (k = "GPS" ∧ v = z))
    as Hget.
  { intros k v. destruct Hm as [-> | [-> | [-> | ->]]]; cbn [dict_get];
      repeat case_decide; intros Hv; try done;
      injection Hv as <-; subst; auto. }
  assert (dict_get "Device" m = Some x ∧ dict_get "Date" m = Some y
          ∧ dict_get "GPS" m = Some z) as (Hd & Ht & Hg).
  { by destruct Hm as [-> | [-> | [-> | ->]]]. }
  split; [|split; [|split]].
  - intros k. rewrite !elem_of_cons, elem_of_nil. split.
    + intros [v Hv]. destruct (Hget k v Hv) as [[-> _]|[[-> _]|[-> _]]]; auto.
    + intros [-> | [-> | [-> | []]]]; eauto.
  - by destruct Hm as [-> | [-> | [-> | ->]]].
  - intros k v Hv. destruct (Hget k v Hv) as [[_ ->]|[[_ ->]|[_ ->]]]; done.
  - done.
Qed.

(** X27.  Whatever the file holds, and also when it cannot be read, the
    result has the three fields Device, Date and GPS and no other, none of
    them empty; GPS is "Yes" exactly when latitude and longitude are both
    present and not empty, and an unreadable file has "<MISSING>" in all
    three. *)
Theorem get_image_metadata_fields (exif : option (gmap string string)) :
  (∀ k, is_Some (dict_get k (get_image_metadata strip contains exif))
        ↔ k ∈ ["Device"; "Date"; "GPS"])
  ∧ length (get_image_metadata strip contains exif) = 3%nat
  ∧ (∀ k v, dict_get k (get_image_metadata strip contains exif) = Some v → v ≠ "")
  ∧ (dict_get "GPS" (get_image_metadata strip contains exif)
     = Some (if match exif with
                | Some e => truthy (e !! "Exif.GPSInfo.GPSLatitude")
                            && truthy (e !! "Exif.GPSInfo.GPSLongitude")
                | None => false
                end
             then "Yes" else "<MISSING>"))
  ∧ (exif = None → ∀ k, k ∈ ["Device"; "Date"; "GPS"] →
       dict_get k (get_image_metadata strip contains exif) = Some "<MISSING>").
Proof.
  destruct exif as [e|].
  2:{ destruct (three_fields (get_image_metadata strip contains None)
                  "<MISSING>" "<MISSING>" "<MISSING>")
        as (Hk & Hl & Hv & Hd & Ht & Hg); [done..|by left|].
      split; [done|]. split; [done|]. split; [done|]. split; [done|].
      intros _ k. rewrite !elem_of_cons, elem_of_nil.
      intros [-> | [-> | [-> | []]]]; done. }
  unfold get_image_metadata.
  set (make := strip (default "" (e !! "Exif.Image.Make"))).
  set (model := strip (default "" (e !! "Exif.Image.Model"))).
  set (date := if truthy (e !! "Exif.Photo.DateTimeOriginal")
               then e !! "Exif.Photo.DateTimeOriginal"
               else e !! "Exif.Image.DateTime").
  set (gps := truthy (e !! "Exif.GPSInfo.GPSLatitude")
              && truthy (e !! "Exif.GPSInfo.GPSLongitude")).
  set (dev := if contains make model then model else make +:+ " " +:+ model).
  assert (model ≠ "" → dev ≠ "") as Hdev.
  { intros Hm. unfold dev. destruct (contains make model); [done|].
    apply append_space_nonempty. }
  pose proof (truthy_nonempty date) as Hdate.
  clearbody dev date gps make model.
  match goal with |- context [dict_get _ ?m] => set (meta := m) end.
  destruct (three_fields meta
              (if decide (model ≠ "") then dev
               else if decide (make ≠ "") then make else "<MISSING>")
              (if truthy date then default "" date else "<MISSING>")
              (if gps then "Yes" else "<MISSING>"))
    as (Hk & Hl & Hv & Hd & Ht & Hg).
  - repeat case_decide; auto.
  - destruct (truthy date); auto.
  - by destruct gps.
  - unfold meta.
    destruct (decide (model ≠ "")); [|destruct (decide (make ≠ ""))];
      destruct (truthy date); destruct gps;
      first [ left; reflexivity | right; left; reflexivity
            | right; right; left; reflexivity | right; right; right; reflexivity ].
  - split; [done|]. split; [done|]. split; [done|]. split; [done|]. done.
Qed.
End ImageMetadataFacts.
